(** * Batched Merkle attestation: [scripts/sovereign/merkle_tree.py]

    A shallow embedding of the classes [MerkleTree] and [TokenBlocker] and
    the properties the specification states about them.

    Python values are modelled as follows: [str] as [string], [int] as [Z]
    (unbounded, with floor division and a modulus that has the sign of the
    divisor, exactly as [Z.div] and [Z.modulo]), [list] as [list], and an
    exception raised by an expression as the [Raise] constructor of
    [result].  A method that mutates [self] takes the object and returns the
    new object next to its result, also when the result is an exception. *)

From Equations Require Import Equations.
From Stdlib Require Import String Bool Arith ZArith Lia List PrimFloat.
Import ListNotations.

Local Open Scope Z_scope.

(** ** Python runtime: exceptions and list subscription *)

Inductive exn : Type :=
| IndexError
| OtherError (msg : string).

Inductive result (A : Type) : Type :=
| Ok (a : A)
| Raise (e : exn).
Arguments Ok {A} a.
Arguments Raise {A} e.

Definition bind {A B : Type} (r : result A) (k : A -> result B) : result B :=
  match r with
  | Ok a => k a
  | Raise e => Raise e
  end.

Notation "x <- r ;; k" := (bind r (fun x => k))
  (at level 61, r at next level, right associativity).

(** [len(l)] *)
Definition len {A : Type} (l : list A) : Z := Z.of_nat (length l).

(** [l[i]]: a negative subscript counts from the end of the list, and a
    subscript outside [-len(l) .. len(l)-1] raises [IndexError]. *)
Definition py_index {A : Type} (l : list A) (i : Z) : result A :=
  let j := if i <? 0 then i + len l else i in
  if (j <? 0) || (len l <=? j) then Raise IndexError
  else match nth_error l (Z.to_nat j) with
       | Some a => Ok a
       | None => Raise IndexError
       end.

(** [l[:-1]] *)
Definition all_but_last {A : Type} (l : list A) : list A := removelast l.

(** [not l], the truth value of a list *)
Definition is_empty {A : Type} (l : list A) : bool :=
  match l with
  | [] => true
  | _ :: _ => false
  end.

(** ** The data classes *)

Record MerkleProof : Type := mkMerkleProof {
  leaf_hash : string;
  leaf_index : Z;
  siblings : list string;
  root : string
}.

Record SignedBlock : Type := mkSignedBlock {
  tokens : list string;
  merkle_root : string;
  signature : option string;
  timestamp : float;
  block_id : Z
}.

(** ** class MerkleTree *)

Record MerkleTree : Type := mkMerkleTree {
  leaves : list string;
  tree : list (list string)
}.

(** [MerkleTree.__init__] and the state [clear] leaves behind. *)
Definition MerkleTree_init : MerkleTree := mkMerkleTree [] [].

Definition clear (t : MerkleTree) : MerkleTree := mkMerkleTree [] [].

(** A signer whose [sign] always raises. *)
Definition failing_signer (data : string) : result string :=
  Raise (OtherError "signer unavailable").

(** A stand-in for [hash_fn] to run the code on concrete inputs: it puts a
    mark in front of its argument.  [MerkleTree(hash_fn=...)] accepts any
    function on strings. *)
Definition tag_hash (data : string) : string := ("#" ++ data)%string.

Section Merkle.

(** [self.hash_fn]: the constructor's argument, or by default the SHA-256
    hex digest of hashlib, which is not code of this repository. *)
Variable hash_fn : string -> string.

Definition _combine (left right : string) : string :=
  hash_fn (left ++ right)%string.

Definition add_leaf (t : MerkleTree) (data : string) : Z * MerkleTree :=
  let leaf_hash := hash_fn data in
  let leaves' := leaves t ++ [leaf_hash] in
  (len leaves' - 1, mkMerkleTree leaves' (tree t)).

(** The [for i in range(0, len(current_level), 2)] loop of [build]: the
    nodes are taken two at a time, and a node without a right neighbour is
    combined with itself. *)
Fixpoint next_level (current_level : list string) : list string :=
  match current_level with
  | [] => []
  | [left_] => [_combine left_ left_]
  | left_ :: right_ :: rest => _combine left_ right_ :: next_level rest
  end.

Definition inspect {A : Type} (a : A) : {b : A | a = b} := exist _ a eq_refl.

(** The [while len(current_level) > 1] loop of [build]; it returns the last
    [current_level] and [self.tree]. *)
Equations? build_while (current_level : list string) (tree : list (list string))
  : list string * list (list string) by wf (length current_level) lt :=
  build_while current_level tree with inspect (1 <? len current_level) => {
    | exist _ true _ =>
        build_while (next_level current_level)
                    (tree ++ [next_level current_level]);
    | exist _ false _ => (current_level, tree) }.
Proof.
  assert (L : forall l : list string,
             (length (next_level l) <= length l)%nat /\
             forall a b, (length (next_level (a :: b :: l)) < length (a :: b :: l))%nat).
  { fix IH 1. intros [|a [|b l]]; cbn [next_level length]; split; intros; try lia.
    destruct (IH l) as [H _]. lia.
    destruct (IH l) as [H _]. lia. }
  destruct current_level as [|a [|b l]]; cbn in e; try discriminate.
  apply L.
Qed.

Definition build (t : MerkleTree) : result string * MerkleTree :=
  if is_empty (leaves t) then (Ok (hash_fn ""), t)
  else
    let current_level := leaves t in
    let '(current_level', tree') := build_while current_level [current_level] in
    (py_index current_level' 0, mkMerkleTree (leaves t) tree').

Definition get_root (t : MerkleTree) : result string * MerkleTree :=
  if is_empty (tree t) then build t
  else
    match py_index (tree t) (-1) with
    | Raise e => (Raise e, t)
    | Ok top =>
        if negb (len top =? 1) then build t
        else (top' <- py_index (tree t) (-1) ;; py_index top' 0, t)
    end.

(** The [for level in self.tree[:-1]] loop of [get_proof]; [siblings] is the
    list the loop appends to. *)
Fixpoint proof_loop (levels : list (list string)) (current_index : Z)
    (siblings : list string) : result (list string) :=
  match levels with
  | [] => Ok siblings
  | level :: levels' =>
      let sibling_index :=
        if current_index mod 2 =? 0 then current_index + 1
        else current_index - 1 in
      sibling <- (if sibling_index <? len level
                  then py_index level sibling_index
                  else py_index level current_index) ;;
      proof_loop levels' (current_index / 2) (siblings ++ [sibling])
  end.

Definition get_proof (t : MerkleTree) (index : Z)
  : result MerkleProof * MerkleTree :=
  let '(built, t1) :=
    if is_empty (tree t) then build t else (Ok EmptyString, t) in
  match built with
  | Raise e => (Raise e, t1)
  | Ok _ =>
      match proof_loop (all_but_last (tree t1)) index [] with
      | Raise e => (Raise e, t1)
      | Ok siblings =>
          match py_index (leaves t1) index with
          | Raise e => (Raise e, t1)
          | Ok leaf_hash =>
              let '(r, t2) := get_root t1 in
              (root <- r ;; Ok (mkMerkleProof leaf_hash index siblings root),
               t2)
          end
      end
  end.

(** The [for sibling in proof.siblings] loop of [verify_proof]. *)
Fixpoint verify_loop (siblings : list string) (current : string) (index : Z)
  : string :=
  match siblings with
  | [] => current
  | sibling :: siblings' =>
      let current' :=
        if index mod 2 =? 0 then _combine current sibling
        else _combine sibling current in
      verify_loop siblings' current' (index / 2)
  end.

Definition verify_proof (proof : MerkleProof) : bool :=
  String.eqb (verify_loop (siblings proof) (leaf_hash proof) (leaf_index proof))
             (root proof).

(** ** class TokenBlocker

    [TokenBlocker] creates its tree with [MerkleTree()], so [hash_fn] is the
    default digest there.  [signer] is [None] or an object whose [sign]
    method returns a string or raises; [time.time()] is an input of the
    calls that may read the clock. *)

Definition Signer : Type := string -> result string.

Record TokenBlocker : Type := mkTokenBlocker {
  block_size : Z;
  signer : option Signer;
  current_tokens : list string;
  current_tree : MerkleTree;
  signed_blocks : list SignedBlock;
  block_counter : Z
}.

Definition TokenBlocker_init (block_size : Z) (signer : option Signer)
  : TokenBlocker :=
  mkTokenBlocker block_size signer [] MerkleTree_init [] 0.

(** [if self.signer: try: signature = self.signer.sign(root) except: pass] *)
Definition sign_root (signer : option Signer) (root : string) : option string :=
  match signer with
  | None => None
  | Some s =>
      match s root with
      | Ok signature => Some signature
      | Raise _ => None
      end
  end.

Definition _finalize_block (b : TokenBlocker) (now : float)
  : result SignedBlock * TokenBlocker :=
  let '(r, tree1) := get_root (current_tree b) in
  match r with
  | Raise e =>
      (Raise e,
       mkTokenBlocker (block_size b) (signer b) (current_tokens b) tree1
                      (signed_blocks b) (block_counter b))
  | Ok root =>
      let signature := sign_root (signer b) root in
      let block :=
        mkSignedBlock (current_tokens b) root signature now (block_counter b) in
      (Ok block,
       mkTokenBlocker (block_size b) (signer b) [] (clear tree1)
                      (signed_blocks b ++ [block]) (block_counter b + 1))
  end.

Definition add_token (b : TokenBlocker) (token : string) (now : float)
  : result (option SignedBlock) * TokenBlocker :=
  let b1 :=
    mkTokenBlocker (block_size b) (signer b) (current_tokens b ++ [token])
                   (snd (add_leaf (current_tree b) token))
                   (signed_blocks b) (block_counter b) in
  if block_size b1 <=? len (current_tokens b1) then
    let '(r, b2) := _finalize_block b1 now in
    (block <- r ;; Ok (Some block), b2)
  else (Ok None, b1).

Definition flush (b : TokenBlocker) (now : float)
  : result (option SignedBlock) * TokenBlocker :=
  if negb (is_empty (current_tokens b)) then
    let '(r, b1) := _finalize_block b now in
    (block <- r ;; Ok (Some block), b1)
  else (Ok None, b).

Definition get_all_blocks (b : TokenBlocker) : list SignedBlock :=
  signed_blocks b.


(** ** Sequences of calls

    The drivers below only chain the methods above, the way the script's
    [__main__] block does. *)

(** [for data in items: t.add_leaf(data)] *)
Definition add_leaves (t : MerkleTree) (items : list string) : MerkleTree :=
  fold_left (fun t' data => snd (add_leaf t' data)) items t.

(** A fresh [MerkleTree] that received the items of one block. *)
Definition block_tree (items : list string) : MerkleTree :=
  add_leaves MerkleTree_init items.

(** The root [_finalize_block] stores for a block with these items. *)
Definition block_root (items : list string) : result string :=
  fst (get_root (block_tree items)).

Inductive call : Type :=
| AddToken (token : string)
| Flush.

Definition do_call (b : TokenBlocker) (c : call) (now : float)
  : result (option SignedBlock) * TokenBlocker :=
  match c with
  | AddToken token => add_token b token now
  | Flush => flush b now
  end.

(** A sequence of calls, each with the clock reading it would get; the
    results are collected in call order. *)
Fixpoint run (b : TokenBlocker) (calls : list (call * float))
  : list (result (option SignedBlock)) * TokenBlocker :=
  match calls with
  | [] => ([], b)
  | (c, now) :: calls' =>
      let '(r, b1) := do_call b c now in
      let '(rs, b2) := run b1 calls' in
      (r :: rs, b2)
  end.

(** The blocks a sequence of calls handed back to the caller. *)
Fixpoint sealed (results : list (result (option SignedBlock)))
  : list SignedBlock :=
  match results with
  | [] => []
  | Ok (Some block) :: results' => block :: sealed results'
  | _ :: results' => sealed results'
  end.

(** [add_token] once per item. *)
Definition add_all (items : list (string * float)) : list (call * float) :=
  map (fun item => (AddToken (fst item), snd item)) items.

(** The attestor after [add_token] calls that only accumulated. *)
Definition after_adds (b : TokenBlocker) (new_tokens : list string)
  : TokenBlocker :=
  mkTokenBlocker (block_size b) (signer b) (current_tokens b ++ new_tokens)
                 (add_leaves (current_tree b) new_tokens)
                 (signed_blocks b) (block_counter b).

(** What [_finalize_block] produces once [get_root] gave [root]. *)
Definition sealed_block (b : TokenBlocker) (root : string) (now : float)
  : SignedBlock :=
  mkSignedBlock (current_tokens b) root (sign_root (signer b) root) now
                (block_counter b).

Definition after_seal (b : TokenBlocker) (block : SignedBlock) : TokenBlocker :=
  mkTokenBlocker (block_size b) (signer b) [] MerkleTree_init
                 (signed_blocks b ++ [block]) (block_counter b + 1).

(** Invariant of the history: block ids count up from 0 and the counter
    is the id of the next block. *)
Definition ids_in_order (b : TokenBlocker) : Prop :=
  block_counter b = len (signed_blocks b) /\
  map block_id (signed_blocks b) =
  map Z.of_nat (seq 0 (length (signed_blocks b))).

(** Invariant of the accumulation: the tree holds the hashes of the open
    block's tokens and was not built, and every sealed block is non-empty
    and stores the root of its own tokens. *)
Definition roots_match (b : TokenBlocker) : Prop :=
  current_tree b = block_tree (current_tokens b) /\
  Forall (fun block => tokens block <> [] /\
                       block_root (tokens block) = Ok (merkle_root block))
         (signed_blocks b).

(** Two blocks, and two attestors, that agree on all but signatures,
    timestamps and the signer. *)
Definition same_content (x y : SignedBlock) : Prop :=
  tokens x = tokens y /\ merkle_root x = merkle_root y /\
  block_id x = block_id y.

Definition same_progress (b1 b2 : TokenBlocker) : Prop :=
  block_size b1 = block_size b2 /\
  current_tokens b1 = current_tokens b2 /\
  current_tree b1 = current_tree b2 /\
  block_counter b1 = block_counter b2 /\
  Forall2 same_content (signed_blocks b1) (signed_blocks b2).

(** The shape of [self.tree] after [build]: every level above the first
    is the pairing of the level below, which has two nodes or more, and the
    last level is a single node. *)
Fixpoint levels_linked (levels : list (list string)) : Prop :=
  match levels with
  | [] => False
  | level :: higher =>
      match higher with
      | [] => length level = 1%nat
      | level' :: _ =>
          (1 < length level)%nat /\ level' = next_level level /\
          levels_linked higher
      end
  end.

(** Calls on one long-lived [MerkleTree], the way the proxy of
    [opencode_integration/sovereign_proxy.py] uses it: [add_leaf] for each
    request and token, [get_root] at the end of each request. *)
Inductive tree_call : Type :=
| AddLeaf (data : string)
| GetRoot.

(** The results of the [get_root] calls, in call order, and the tree. *)
Fixpoint run_tree (t : MerkleTree) (calls : list tree_call)
  : list (result string) * MerkleTree :=
  match calls with
  | [] => ([], t)
  | AddLeaf data :: calls' => run_tree (snd (add_leaf t data)) calls'
  | GetRoot :: calls' =>
      let '(r, t1) := get_root t in
      let '(rs, t2) := run_tree t1 calls' in
      (r :: rs, t2)
  end.

Fixpoint added_data (calls : list tree_call) : list string :=
  match calls with
  | [] => []
  | AddLeaf data :: calls' => data :: added_data calls'
  | GetRoot :: calls' => added_data calls'
  end.

(** The tokens a call hands to the attestor, and those of a sequence of
    calls in call order. *)
Definition call_tokens (c : call) : list string :=
  match c with
  | AddToken token => [token]
  | Flush => []
  end.

Definition added_tokens (calls : list (call * float)) : list string :=
  flat_map (fun c => call_tokens (fst c)) calls.

(** The same attestor with another signer plugged in. *)
Definition with_signer (b : TokenBlocker) (s : option Signer) : TokenBlocker :=
  mkTokenBlocker (block_size b) s (current_tokens b) (current_tree b)
                 (signed_blocks b) (block_counter b).

(** ** Unfolding the loop of [build] *)

Lemma build_while_stop (current_level : list string) (tree : list (list string)) :
  len current_level <= 1 -> build_while current_level tree = (current_level, tree).
Proof.
  intros H. rewrite build_while_equation_1.
  destruct (inspect (1 <? len current_level)) as [[|] e].
  - pose proof (proj1 (Z.ltb_lt _ _) e). lia.
  - now rewrite build_while_clause_1_equation_2.
Qed.

Lemma build_while_step (current_level : list string) (tree : list (list string)) :
  1 < len current_level ->
  build_while current_level tree =
  build_while (next_level current_level) (tree ++ [next_level current_level]).
Proof.
  intros H. rewrite build_while_equation_1.
  destruct (inspect (1 <? len current_level)) as [[|] e].
  - now rewrite build_while_clause_1_equation_1.
  - pose proof (proj1 (Z.ltb_ge _ _) e). lia.
Qed.

(** ** Subscription *)

Lemma py_index_nat (A : Type) (l : list A) (n : nat) :
  py_index l (Z.of_nat n) =
  match nth_error l n with
  | Some a => Ok a
  | None => Raise IndexError
  end.
Proof.
  unfold py_index, len. cbv zeta.
  assert (E0 : (Z.of_nat n <? 0) = false) by (apply Z.ltb_ge; lia).
  rewrite E0, E0, Nat2Z.id.
  destruct (Z.leb_spec (Z.of_nat (length l)) (Z.of_nat n)) as [H|H]; cbn [orb].
  - assert (E : nth_error l n = None) by (apply nth_error_None; lia).
    now rewrite E.
  - reflexivity.
Qed.

Lemma py_index_outside (A : Type) (l : list A) (i : Z) :
  len l <= i \/ i < - len l -> py_index l i = Raise IndexError.
Proof.
  unfold py_index. cbv zeta. intros H.
  assert (Hl : 0 <= len l) by apply Nat2Z.is_nonneg.
  destruct (Z.ltb_spec i 0) as [Hi|Hi].
  - destruct (Z.ltb_spec (i + len l) 0) as [H'|H']; [reflexivity|]. lia.
  - destruct (Z.ltb_spec i 0) as [H'|_]; [lia|].
    destruct (Z.leb_spec (len l) i) as [_|H']; [reflexivity|]. lia.
Qed.

Lemma py_index_only_IndexError (A : Type) (l : list A) (i : Z) (e : exn) :
  py_index l i = Raise e -> e = IndexError.
Proof.
  unfold py_index. cbv zeta.
  destruct (_ || _); [congruence|].
  destruct (nth_error _ _); congruence.
Qed.

Lemma py_index_last (A : Type) (l : list A) (a : A) :
  py_index (l ++ [a]) (-1) = Ok a.
Proof.
  replace (-1) with (- 1) by reflexivity.
  unfold py_index, len. cbv zeta. rewrite length_app.
  cbn [length Z.ltb Z.compare Z.opp].
  replace (-1 + Z.of_nat (length l + 1)) with (Z.of_nat (length l)) by lia.
  destruct (Z.ltb_spec (Z.of_nat (length l)) 0) as [H|_]; [lia|].
  destruct (Z.leb_spec (Z.of_nat (length l + 1)) (Z.of_nat (length l))) as [H|_];
    [lia|].
  cbn [orb]. rewrite Nat2Z.id, nth_error_app2, Nat.sub_diag by lia.
  reflexivity.
Qed.

(** ** The levels of the tree *)

(** Node [k] of the next level combines nodes [2k] and [2k+1] of the
    current one, and node [2k] with itself when it has no right neighbour. *)
Lemma next_level_nth (l : list string) (k : nat) :
  nth_error (next_level l) k =
  match nth_error l (2 * k) with
  | None => None
  | Some a =>
      Some (_combine a (match nth_error l (2 * k + 1) with
                        | Some b => b
                        | None => a
                        end))
  end.
Proof.
  revert l k. fix IH 1. intros [|a [|b l]] k.
  - now rewrite !nth_error_nil.
  - destruct k as [|k]; [reflexivity|].
    replace (2 * S k)%nat with (S (S (2 * k))) by lia.
    cbn [next_level nth_error]. now rewrite !nth_error_nil.
  - destruct k as [|k]; [reflexivity|].
    replace (2 * S k + 1)%nat with (S (S (2 * k + 1))) by lia.
    replace (2 * S k)%nat with (S (S (2 * k))) by lia.
    cbn [next_level nth_error]. apply IH.
Qed.

Lemma next_level_length (l : list string) :
  length (next_level l) = Nat.div2 (S (length l)).
Proof.
  revert l. fix IH 1. intros [|a [|b l]]; try reflexivity.
  cbn [next_level length Nat.div2]. now rewrite IH.
Qed.

Lemma next_level_nonempty (l : list string) : l <> [] -> next_level l <> [].
Proof. destruct l as [|a [|b l]]; cbn; congruence. Qed.

(** Induction along the iterations of the [while] loop. *)
Lemma build_while_ind (P : list string -> Prop) :
  (forall l, len l <= 1 -> P l) ->
  (forall l, 1 < len l -> P (next_level l) -> P l) ->
  forall l, P l.
Proof.
  intros Hstop Hstep l.
  remember (length l) as n eqn:En.
  revert l En. induction n as [n IH] using lt_wf_ind. intros l En.
  destruct (Z_le_gt_dec (len l) 1) as [H|H]; [now apply Hstop|].
  apply Hstep; [lia|].
  apply (IH (length (next_level l))); [|reflexivity].
  rewrite next_level_length. subst n. unfold len in H.
  destruct (length l) as [|[|n]]; try lia.
  change (S (Nat.div2 (S n)) < S (S n))%nat.
  pose proof (Nat.div2_decr (S n) n (le_n _)). lia.
Qed.

Local Abbreviation top l := (fst (build_while l [])).
Local Abbreviation upper l := (snd (build_while l [])).

Lemma build_while_acc (l : list string) (tr : list (list string)) :
  build_while l tr = (top l, tr ++ upper l).
Proof.
  revert tr. induction l as [l H|l H IH] using build_while_ind; intros tr.
  - rewrite !build_while_stop by assumption. cbn. now rewrite app_nil_r.
  - rewrite !(build_while_step l) by assumption.
    rewrite (IH (tr ++ _)), (IH ([] ++ _)). cbn. now rewrite <- app_assoc.
Qed.

Lemma levels_stop (l : list string) :
  len l <= 1 -> top l = l /\ upper l = [].
Proof. intros H. now rewrite build_while_stop. Qed.

Lemma levels_step (l : list string) :
  1 < len l ->
  top l = top (next_level l) /\
  upper l = next_level l :: upper (next_level l).
Proof. intros H. now rewrite build_while_step, build_while_acc. Qed.

(** The loop stops on a single node as soon as there was a node at all. *)
Lemma top_singleton (l : list string) : l <> [] -> exists r, top l = [r].
Proof.
  induction l as [l H|l H IH] using build_while_ind; intros Hne.
  - destruct (levels_stop l H) as [-> _].
    destruct l as [|r [|? ?]]; [congruence|now exists r|].
    unfold len in H. cbn in H. lia.
  - destruct (levels_step l H) as [-> _]. apply IH. now apply next_level_nonempty.
Qed.

Lemma all_but_last_cons (A : Type) (a b : A) (l : list A) :
  all_but_last (a :: b :: l) = a :: all_but_last (b :: l).
Proof. reflexivity. Qed.

(** [self.tree] after [build] ends with the level the loop stopped on. *)
Lemma levels_split (l : list string) :
  l :: upper l = all_but_last (l :: upper l) ++ [top l].
Proof.
  induction l as [l H|l H IH] using build_while_ind.
  - now destruct (levels_stop l H) as [-> ->].
  - destruct (levels_step l H) as [-> ->].
    rewrite all_but_last_cons. cbn [app]. now rewrite <- IH.
Qed.

Lemma all_but_last_step (l : list string) :
  1 < len l ->
  all_but_last (l :: upper l) =
  l :: all_but_last (next_level l :: upper (next_level l)).
Proof.
  intros H. destruct (levels_step l H) as [_ ->]. apply all_but_last_cons.
Qed.

Lemma all_but_last_stop (l : list string) :
  len l <= 1 -> all_but_last (l :: upper l) = [].
Proof. intros H. now destruct (levels_stop l H) as [_ ->]. Qed.

(** ** [build] and [get_root] *)

Lemma build_nonempty (t : MerkleTree) :
  leaves t <> [] ->
  exists r,
    top (leaves t) = [r] /\
    build t = (Ok r, mkMerkleTree (leaves t) (leaves t :: upper (leaves t))).
Proof.
  intros Hne. destruct (top_singleton (leaves t) Hne) as [r Hr].
  exists r. split; [assumption|].
  unfold build. destruct (leaves t) as [|a l] eqn:El; [congruence|].
  cbn [is_empty]. rewrite build_while_acc, Hr. reflexivity.
Qed.

Lemma build_empty (t : MerkleTree) :
  leaves t = [] -> build t = (Ok (hash_fn ""), t).
Proof. intros E. unfold build. now rewrite E. Qed.

(** Once a tree was built, [get_root] answers from [self.tree] alone,
    whatever [self.leaves] holds by then. *)
Lemma get_root_built (l leaves' : list string) (r : string) :
  top l = [r] ->
  get_root (mkMerkleTree leaves' (l :: upper l)) =
  (Ok r, mkMerkleTree leaves' (l :: upper l)).
Proof.
  intros Hr. unfold get_root. cbn [tree is_empty].
  rewrite (levels_split l), py_index_last, Hr. reflexivity.
Qed.

Lemma get_root_total (t : MerkleTree) : exists r t', get_root t = (Ok r, t').
Proof.
  assert (B : exists r t', build t = (Ok r, t')).
  { destruct (leaves t) as [|a l] eqn:El.
    - rewrite build_empty by assumption. eauto.
    - destruct (build_nonempty t) as [r [_ ->]]; [congruence|eauto]. }
  unfold get_root. destruct (tree t) as [|a l] eqn:Et; [exact B|].
  cbn [is_empty].
  destruct (@exists_last _ (a :: l)) as [pre [lvl ->]]; [congruence|].
  rewrite py_index_last.
  destruct (Z.eqb_spec (len lvl) 1) as [H1|H1]; cbn [negb]; [|exact B].
  destruct lvl as [|r [|? ?]]; try (unfold len in H1; cbn in H1; lia).
  exists r, t. reflexivity.
Qed.

(** ** The path from a leaf to the root *)

Lemma even_index (k : nat) :
  Z.of_nat (2 * k) mod 2 = 0 /\ Z.of_nat (2 * k) / 2 = Z.of_nat k.
Proof. Z.div_mod_to_equations. lia. Qed.

Lemma odd_index (k : nat) :
  Z.of_nat (2 * k + 1) mod 2 = 1 /\ Z.of_nat (2 * k + 1) / 2 = Z.of_nat k.
Proof. Z.div_mod_to_equations. lia. Qed.

Lemma nth_error_len (A : Type) (l : list A) (m : nat) (a : A) :
  nth_error l m = Some a -> Z.of_nat m < len l.
Proof.
  intros H. assert (m < length l)%nat by (apply nth_error_Some; congruence).
  unfold len. lia.
Qed.

(** The siblings [get_proof] collects along the levels lead [verify_proof]
    from node [m] of a level to the node the loop of [build] stops on. *)
Lemma proof_path (l : list string) :
  forall (m : nat) (v : string) (acc : list string),
    nth_error l m = Some v ->
    exists sibs,
      proof_loop (all_but_last (l :: upper l)) (Z.of_nat m) acc =
        Ok (acc ++ sibs) /\
      top l = [verify_loop sibs v (Z.of_nat m)].
Proof.
  induction l as [l H|l H IH] using build_while_ind; intros m v acc Hv.
  - exists []. rewrite all_but_last_stop, app_nil_r by assumption.
    destruct (levels_stop l H) as [-> _].
    pose proof (nth_error_len _ _ _ _ Hv) as Hm.
    destruct l as [|a [|? ?]]; try (unfold len in *; cbn in *; lia).
    destruct m as [|m]; [|unfold len in *; cbn in *; lia].
    cbn in Hv. injection Hv as ->. split; reflexivity.
  - rewrite all_but_last_step by assumption.
    destruct (levels_step l H) as [-> _].
    pose proof (nth_error_len _ _ _ _ Hv) as Hm.
    cbn [proof_loop].
    destruct (Nat.Even_or_Odd m) as [[k ->]|[k ->]].
    + (* a left node: its sibling is on the right, or it is its own *)
      destruct (even_index k) as [Emod Ediv]. rewrite Emod, Ediv. cbn [Z.eqb].
      replace (Z.of_nat (2 * k) + 1) with (Z.of_nat (2 * k + 1)) by lia.
      pose proof (next_level_nth l k) as Hk. rewrite Hv in Hk.
      destruct (Z.ltb_spec (Z.of_nat (2 * k + 1)) (len l)) as [Hs|Hs].
      * rewrite py_index_nat.
        destruct (nth_error l (2 * k + 1)) as [b|] eqn:Eb.
        2:{ apply nth_error_None in Eb. unfold len in Hs. lia. }
        cbn [bind].
        destruct (IH k (_combine v b) (acc ++ [b]) Hk) as [sibs [Hp Ht]].
        exists (b :: sibs). rewrite Hp, <- app_assoc. split; [reflexivity|].
        cbn [verify_loop]. rewrite Emod, Ediv. exact Ht.
      * rewrite py_index_nat, Hv. cbn [bind].
        assert (Eb : nth_error l (2 * k + 1) = None).
        { apply nth_error_None. unfold len in Hs. lia. }
        rewrite Eb in Hk.
        destruct (IH k (_combine v v) (acc ++ [v]) Hk) as [sibs [Hp Ht]].
        exists (v :: sibs). rewrite Hp, <- app_assoc. split; [reflexivity|].
        cbn [verify_loop]. rewrite Emod, Ediv. exact Ht.
    + (* a right node: its sibling is on the left *)
      destruct (odd_index k) as [Emod Ediv]. rewrite Emod, Ediv. cbn [Z.eqb].
      replace (Z.of_nat (2 * k + 1) - 1) with (Z.of_nat (2 * k)) by lia.
      destruct (Z.ltb_spec (Z.of_nat (2 * k)) (len l)) as [Hs|Hs]; [|lia].
      rewrite py_index_nat.
      destruct (nth_error l (2 * k)) as [a|] eqn:Ea.
      2:{ apply nth_error_None in Ea. unfold len in Hs. lia. }
      cbn [bind].
      pose proof (next_level_nth l k) as Hk. rewrite Ea, Hv in Hk.
      destruct (IH k (_combine a v) (acc ++ [a]) Hk) as [sibs [Hp Ht]].
      exists (a :: sibs). rewrite Hp, <- app_assoc. split; [reflexivity|].
      cbn [verify_loop]. rewrite Emod, Ediv. exact Ht.
Qed.

Lemma add_leaves_spec (items : list string) :
  forall t,
    add_leaves t items =
    mkMerkleTree (leaves t ++ map hash_fn items) (tree t).
Proof.
  unfold add_leaves.
  induction items as [|x items IH]; intros [lv tr]; cbn [fold_left map].
  - now rewrite app_nil_r.
  - rewrite IH. cbn. now rewrite <- app_assoc.
Qed.

Lemma block_tree_spec (items : list string) :
  block_tree items = mkMerkleTree (map hash_fn items) [].
Proof. unfold block_tree. now rewrite add_leaves_spec. Qed.

(** [get_proof] on a tree that is built and whose leaves did not change. *)
Lemma get_proof_built (l : list string) (m : nat) (v : string) :
  nth_error l m = Some v ->
  exists sibs r,
    top l = [r] /\
    verify_loop sibs v (Z.of_nat m) = r /\
    get_proof (mkMerkleTree l (l :: upper l)) (Z.of_nat m) =
    (Ok (mkMerkleProof v (Z.of_nat m) sibs r), mkMerkleTree l (l :: upper l)).
Proof.
  intros Hv. destruct (proof_path l m v [] Hv) as [sibs [Hp Ht]].
  exists sibs, (verify_loop sibs v (Z.of_nat m)).
  split; [assumption|]. split; [reflexivity|].
  unfold get_proof. cbn [tree is_empty leaves]. rewrite Hp. cbn [app].
  rewrite py_index_nat, Hv, (get_root_built l l _ Ht). reflexivity.
Qed.

(** [get_proof] on a tree that was not built yet builds it first, and gives
    what it gives on the built tree. *)
Lemma get_proof_fresh (t : MerkleTree) (m : nat) (v : string) :
  tree t = [] ->
  nth_error (leaves t) m = Some v ->
  exists sibs r,
    let t' := mkMerkleTree (leaves t) (leaves t :: upper (leaves t)) in
    let p := mkMerkleProof v (Z.of_nat m) sibs r in
    build t = (Ok r, t') /\
    verify_loop sibs v (Z.of_nat m) = r /\
    get_proof t (Z.of_nat m) = (Ok p, t') /\
    get_proof t' (Z.of_nat m) = (Ok p, t').
Proof.
  intros Et Hv.
  assert (Hne : leaves t <> []) by (destruct (leaves t), m; cbn in Hv; congruence).
  destruct (build_nonempty t Hne) as [r [Hr Hb]].
  destruct (get_proof_built (leaves t) m v Hv) as [sibs [r' [Hr' [Hver Hg]]]].
  assert (Er : r' = r) by congruence. rewrite Er in Hver, Hg.
  exists sibs, r. cbv zeta.
  split; [assumption|]. split; [assumption|]. split; [|assumption].
  unfold get_proof in *. rewrite Et, Hb. cbn [is_empty].
  cbn [tree is_empty leaves] in Hg. exact Hg.
Qed.

Lemma build_total (t : MerkleTree) :
  exists r t', build t = (Ok r, t') /\ leaves t' = leaves t.
Proof.
  destruct (leaves t) as [|a l] eqn:El.
  - rewrite build_empty by assumption. eauto.
  - destruct (build_nonempty t) as [r [_ ->]]; [congruence|].
    rewrite El. eauto.
Qed.

Lemma proof_loop_only_IndexError (levels : list (list string)) :
  forall (i : Z) (acc : list string) (e : exn),
    proof_loop levels i acc = Raise e -> e = IndexError.
Proof.
  induction levels as [|level levels IH]; intros i acc e; cbn [proof_loop].
  - discriminate.
  - destruct (if _ <? len level then _ else _) as [x|e'] eqn:E; cbn [bind].
    + apply IH.
    + intros [= <-]. destruct (_ <? len level);
        eapply py_index_only_IndexError; eassumption.
Qed.

(** ** Properties of [MerkleTree] *)

(** C1. Round trip: for a block built from a non-empty list of items and a
    leaf index [i] with [0 <= i < len(items)], [get_proof(i)] returns a
    proof for leaf [i] that carries the block's root and that [verify_proof]
    accepts; asking again on the tree [get_proof] built gives the same
    proof. *)
Theorem proof_round_trip (items : list string) (i : Z) :
  items <> [] ->
  0 <= i < len items ->
  exists p t',
    get_proof (block_tree items) i = (Ok p, t') /\
    verify_proof p = true /\
    leaf_index p = i /\
    py_index (map hash_fn items) i = Ok (leaf_hash p) /\
    block_root items = Ok (root p) /\
    get_proof t' i = (Ok p, t').
Proof.
  intros _ Hi. unfold block_root. rewrite block_tree_spec.
  set (t := mkMerkleTree (map hash_fn items) []).
  assert (Hm : (Z.to_nat i < length (leaves t))%nat).
  { cbn [t leaves]. rewrite length_map. unfold len in Hi. lia. }
  destruct (nth_error (leaves t) (Z.to_nat i)) as [v|] eqn:Ev.
  2:{ apply nth_error_None in Ev. lia. }
  destruct (get_proof_fresh t (Z.to_nat i) v eq_refl Ev)
    as [sibs [r [Hb [Hver [Hg Hg']]]]].
  rewrite Z2Nat.id in * by lia.
  exists (mkMerkleProof v i sibs r),
         (mkMerkleTree (leaves t) (leaves t :: upper (leaves t))).
  split; [exact Hg|]. split.
  { unfold verify_proof. cbn [siblings leaf_hash leaf_index root].
    rewrite Hver. apply String.eqb_refl. }
  split; [reflexivity|]. split.
  { cbn [leaf_hash]. rewrite <- (Z2Nat.id i) by lia.
    rewrite py_index_nat. cbn [t leaves] in Ev. now rewrite Ev. }
  split; [|exact Hg'].
  unfold get_root. cbn [t tree is_empty]. fold t. now rewrite Hb.
Qed.

(** C2. Odd-node duplication: the root of a block of three items [a, b, c]
    is [combine(combine(hash(a), hash(b)), combine(hash(c), hash(c)))], and
    at every level a last node without a right neighbour is combined with
    itself. *)
Theorem odd_node_duplication :
  (forall a b c : string,
     block_root [a; b; c] =
     Ok (_combine (_combine (hash_fn a) (hash_fn b))
                  (_combine (hash_fn c) (hash_fn c)))) /\
  (forall (level : list string) (x : string),
     Nat.Even (length level) ->
     next_level (level ++ [x]) = next_level level ++ [_combine x x]).
Proof.
  split.
  - intros a b c. unfold block_root. rewrite block_tree_spec.
    unfold get_root, build. cbn [tree leaves is_empty map].
    rewrite build_while_step by (unfold len; cbn; lia). cbn [next_level app].
    rewrite build_while_step by (unfold len; cbn; lia). cbn [next_level app].
    rewrite build_while_stop by (unfold len; cbn; lia). reflexivity.
  - fix IH 1. intros [|a [|b l]] x Hev.
    + reflexivity.
    + destruct Hev as [k Hk]. cbn in Hk. lia.
    + cbn [app next_level]. rewrite IH; [reflexivity|].
      destruct Hev as [k Hk]. cbn [length] in Hk. exists (k - 1)%nat. lia.
Qed.

(** C9. Single-leaf block: the root of a block of one item is the hash of
    the item, and the proof for index 0 has no siblings. *)
Theorem single_leaf_block (item : string) :
  block_root [item] = Ok (hash_fn item) /\
  exists t',
    get_proof (block_tree [item]) 0 =
    (Ok (mkMerkleProof (hash_fn item) 0 [] (hash_fn item)), t').
Proof.
  assert (Hw : forall tr, build_while [hash_fn item] tr = ([hash_fn item], tr))
    by (intros; apply build_while_stop; unfold len; cbn; lia).
  split.
  - unfold block_root. rewrite block_tree_spec.
    unfold get_root, build. cbn [tree leaves is_empty map]. now rewrite Hw.
  - rewrite block_tree_spec. eexists.
    unfold get_proof, build. cbn [tree leaves is_empty map]. rewrite Hw.
    cbn. reflexivity.
Qed.

(** C10, as the code has it.  Stale cached root: when [build()] ran on a
    tree that had at least one leaf and [add_leaf()] is called once or more
    afterwards, [get_root()] returns the root of that earlier [build()] and
    leaves the tree as it is, new leaves included: it does not build
    again. *)
Theorem stale_root_after_add_leaf
    (t t1 : MerkleTree) (r : result string) (data : string) (more : list string) :
  leaves t <> [] ->
  build t = (r, t1) ->
  let t2 := add_leaves t1 (data :: more) in
  get_root t2 = (r, t2) /\
  (exists root0, r = Ok root0) /\
  leaves t2 = leaves t ++ map hash_fn (data :: more) /\
  tree t2 = tree t1.
Proof.
  intros Hne Hb t2. destruct (build_nonempty t Hne) as [r0 [Hr Hb']].
  rewrite Hb' in Hb. injection Hb as <- <-.
  subst t2. rewrite add_leaves_spec. cbn [leaves tree].
  split; [now apply get_root_built|]. split; [now exists r0|]. now split.
Qed.

(** C6, as the code has it.  [get_proof] takes a leaf index only; a
    subscript at or beyond the number of leaves, or below its negation,
    raises [IndexError], whatever state the tree is in. *)
Theorem get_proof_index_out_of_range (t : MerkleTree) (index : Z) :
  len (leaves t) <= index \/ index < - len (leaves t) ->
  fst (get_proof t index) = Raise IndexError.
Proof.
  intros Hout. unfold get_proof.
  assert (B : exists b t1,
             (if is_empty (tree t) then build t else (Ok EmptyString, t)) =
             (Ok b, t1) /\ leaves t1 = leaves t).
  { destruct (is_empty (tree t)); [apply build_total|eauto]. }
  destruct B as [b [t1 [-> El]]].
  destruct (proof_loop _ index []) as [sibs|e] eqn:Ep.
  - rewrite El, py_index_outside by assumption. reflexivity.
  - cbn [fst]. f_equal. eapply proof_loop_only_IndexError. eassumption.
Qed.

(** ** [TokenBlocker]: sealing *)

Lemma _finalize_block_spec (b : TokenBlocker) (now : float) :
  exists root0,
    fst (get_root (current_tree b)) = Ok root0 /\
    _finalize_block b now =
    (Ok (sealed_block b root0 now), after_seal b (sealed_block b root0 now)).
Proof.
  destruct (get_root_total (current_tree b)) as [r [t' Hg]].
  exists r. unfold _finalize_block. rewrite Hg. split; reflexivity.
Qed.

Lemma len_app_one (A : Type) (l : list A) (a : A) : len (l ++ [a]) = len l + 1.
Proof. unfold len. rewrite length_app. cbn. lia. Qed.

Lemma add_token_open (b : TokenBlocker) (token : string) (now : float) :
  len (current_tokens b) + 1 < block_size b ->
  add_token b token now = (Ok None, after_adds b [token]).
Proof.
  intros H. unfold add_token. cbn [block_size current_tokens].
  rewrite len_app_one.
  destruct (Z.leb_spec (block_size b) (len (current_tokens b) + 1)); [lia|].
  reflexivity.
Qed.

Lemma add_token_seals (b : TokenBlocker) (token : string) (now : float) :
  block_size b <= len (current_tokens b) + 1 ->
  exists root0,
    let block := sealed_block (after_adds b [token]) root0 now in
    fst (get_root (current_tree (after_adds b [token]))) = Ok root0 /\
    add_token b token now =
    (Ok (Some block), after_seal (after_adds b [token]) block).
Proof.
  intros H.
  destruct (_finalize_block_spec (after_adds b [token]) now) as [r [Hr Hf]].
  exists r. cbv zeta. split; [assumption|].
  unfold add_token. cbn [block_size current_tokens].
  rewrite len_app_one.
  destruct (Z.leb_spec (block_size b) (len (current_tokens b) + 1)); [|lia].
  unfold after_adds, add_leaves in Hf. cbn [fold_left] in Hf.
  rewrite Hf. reflexivity.
Qed.

Lemma flush_seals (b : TokenBlocker) (now : float) :
  current_tokens b <> [] ->
  exists root0,
    fst (get_root (current_tree b)) = Ok root0 /\
    flush b now =
    (Ok (Some (sealed_block b root0 now)),
     after_seal b (sealed_block b root0 now)).
Proof.
  intros H. destruct (_finalize_block_spec b now) as [r [Hr Hf]].
  exists r. split; [assumption|]. unfold flush.
  destruct (current_tokens b); [congruence|]. cbn [is_empty negb].
  rewrite Hf. reflexivity.
Qed.

Lemma flush_empty (b : TokenBlocker) (now : float) :
  current_tokens b = [] -> flush b now = (Ok None, b).
Proof. intros H. unfold flush. now rewrite H. Qed.

Lemma run_app (calls1 calls2 : list (call * float)) :
  forall b,
    run b (calls1 ++ calls2) =
    (fst (run b calls1) ++ fst (run (snd (run b calls1)) calls2),
     snd (run (snd (run b calls1)) calls2)).
Proof.
  induction calls1 as [|[c now] calls1 IH]; intros b; cbn [run app].
  - cbn [fst snd app]. now destruct (run b calls2).
  - destruct (do_call b c now) as [r b1]. rewrite IH.
    destruct (run b1 calls1) as [rs b2]. reflexivity.
Qed.

Lemma after_adds_cons (b : TokenBlocker) (token : string) (more : list string) :
  after_adds (after_adds b [token]) more = after_adds b (token :: more).
Proof.
  unfold after_adds. cbn [block_size signer current_tokens current_tree
                          signed_blocks block_counter].
  now rewrite <- app_assoc.
Qed.

Lemma run_add_all_open (items : list (string * float)) :
  forall b,
    len (current_tokens b) + len items < block_size b ->
    run b (add_all items) =
    (repeat (Ok None) (length items), after_adds b (map fst items)).
Proof.
  induction items as [|[token now] items IH]; intros b H.
  - cbn. unfold after_adds, add_leaves. cbn. rewrite app_nil_r.
    now destruct b.
  - cbn [add_all map run do_call fst snd].
    assert (Hl : len ((token, now) :: items) = len items + 1)
      by (unfold len; cbn [length]; lia).
    assert (H0 : 0 <= len items) by apply Nat2Z.is_nonneg.
    rewrite add_token_open by lia.
    fold (add_all items). rewrite IH.
    + now rewrite after_adds_cons.
    + cbn [after_adds current_tokens block_size]. rewrite len_app_one. lia.
Qed.

Lemma len_map (A B : Type) (f : A -> B) (l : list A) : len (map f l) = len l.
Proof. unfold len. now rewrite length_map. Qed.

(** C3. Sealing trigger: with [block_size >= 1] and an empty open block,
    [block_size] calls of [add_token] return [None] on all calls but the
    last and a block on the last; the block holds the [block_size] items
    in call order, it is the one block added to the history, and the open
    block and its tree are empty again. *)
Theorem sealing_trigger (b : TokenBlocker) (items : list (string * float)) :
  1 <= block_size b ->
  current_tokens b = [] ->
  len items = block_size b ->
  exists block b',
    run b (add_all items) =
      (repeat (Ok None) (length items - 1) ++ [Ok (Some block)], b') /\
    tokens block = map fst items /\
    len (tokens block) = block_size b /\
    block_id block = block_counter b /\
    current_tokens b' = [] /\
    current_tree b' = MerkleTree_init /\
    signed_blocks b' = signed_blocks b ++ [block] /\
    block_size b' = block_size b.
Proof.
  intros Hbs Hopen Hlen.
  destruct (@exists_last _ items) as [pre [[token now] ->]].
  { intros ->. unfold len in Hlen. cbn in Hlen. lia. }
  rewrite len_app_one in Hlen.
  unfold add_all. rewrite map_app. fold (add_all pre). cbn [map fst snd].
  rewrite run_app, run_add_all_open by (rewrite Hopen; unfold len at 1; cbn; lia).
  cbn [fst snd run do_call].
  destruct (add_token_seals (after_adds b (map fst pre)) token now)
    as [r [_ Ha]].
  { cbn [after_adds block_size current_tokens]. rewrite Hopen. cbn [app].
    rewrite len_map. lia. }
  cbv zeta in Ha. rewrite Ha.
  eexists. eexists. split.
  { rewrite length_app. cbn [length].
    replace (length pre + 1 - 1)%nat with (length pre) by lia. reflexivity. }
  cbn [sealed_block after_seal after_adds tokens block_id current_tokens
       current_tree signed_blocks block_size block_counter].
  rewrite Hopen. cbn [app]. rewrite map_app. cbn [map fst].
  repeat split; try reflexivity.
  rewrite len_app_one, len_map. lia.
Qed.

(** C4. Partial flush: after [k] items with [0 < k < block_size] on an
    empty open block, [flush] returns a block with exactly these [k]
    items and adds it to the history; [flush] right after returns [None]
    and changes nothing. *)
Theorem partial_flush
    (b : TokenBlocker) (items : list (string * float)) (now now' : float) :
  current_tokens b = [] ->
  0 < len items < block_size b ->
  exists block b1 b2,
    run b (add_all items) = (repeat (Ok None) (length items), b1) /\
    flush b1 now = (Ok (Some block), b2) /\
    tokens block = map fst items /\
    len (tokens block) = len items /\
    signed_blocks b2 = signed_blocks b ++ [block] /\
    flush b2 now' = (Ok None, b2).
Proof.
  intros Hopen Hk.
  destruct (flush_seals (after_adds b (map fst items)) now) as [r [_ Hf]].
  { cbn [after_adds current_tokens]. rewrite Hopen. cbn [app].
    destruct items; [unfold len in Hk; cbn in Hk; lia|discriminate]. }
  eexists. eexists. eexists. split.
  { apply run_add_all_open. rewrite Hopen. unfold len at 1. cbn. lia. }
  split; [exact Hf|].
  cbn [sealed_block after_seal after_adds tokens current_tokens signed_blocks].
  rewrite Hopen. cbn [app]. rewrite len_map.
  repeat split; try reflexivity.
Qed.

(** ** [TokenBlocker]: a signer that raises *)

Lemma sign_root_raises (s : Signer) (root0 : string) :
  (forall data, exists e, s data = Raise e) ->
  sign_root (Some s) root0 = None.
Proof. intros H. unfold sign_root. now destruct (H root0) as [e ->]. Qed.

Lemma _finalize_block_unsigned (b : TokenBlocker) (s : Signer) (now : float) :
  signer b = Some s ->
  (forall data, exists e, s data = Raise e) ->
  exists block b',
    _finalize_block b now = (Ok block, b') /\
    _finalize_block (with_signer b None) now = (Ok block, with_signer b' None) /\
    signature block = None /\
    signed_blocks b' = signed_blocks b ++ [block].
Proof.
  intros Hs Hraise.
  destruct (_finalize_block_spec b now) as [r [Hr Hf]].
  destruct (_finalize_block_spec (with_signer b None) now) as [r' [Hr' Hf']].
  cbn [with_signer current_tree] in Hr'.
  assert (r' = r) by congruence. subst r'.
  assert (Hblk : sealed_block (with_signer b None) r now = sealed_block b r now).
  { unfold sealed_block. cbn [with_signer current_tokens signer block_counter].
    rewrite Hs, sign_root_raises by assumption. reflexivity. }
  rewrite Hblk in Hf'.
  exists (sealed_block b r now), (after_seal b (sealed_block b r now)).
  split; [exact Hf|]. split; [exact Hf'|]. split; [|reflexivity].
  unfold sealed_block. cbn [signature]. rewrite Hs. now apply sign_root_raises.
Qed.

(** C5. Signer failure isolation: with a signer whose [sign] raises on
    every input, [add_token] and [flush] return normally; whenever they
    seal, the block has no signature and is appended to the history; and
    results and state are those of the attestor without a signer, the
    [signer] field apart. *)
Theorem signer_failure_isolation (b : TokenBlocker) (s : Signer) (now : float) :
  signer b = Some s ->
  (forall data, exists e, s data = Raise e) ->
  (forall token, exists o b',
     add_token b token now = (Ok o, b') /\
     add_token (with_signer b None) token now = (Ok o, with_signer b' None) /\
     (block_size b <= len (current_tokens b) + 1 ->
      exists block,
        o = Some block /\ signature block = None /\
        signed_blocks b' = signed_blocks b ++ [block])) /\
  (exists o b',
     flush b now = (Ok o, b') /\
     flush (with_signer b None) now = (Ok o, with_signer b' None) /\
     (current_tokens b <> [] ->
      exists block,
        o = Some block /\ signature block = None /\
        signed_blocks b' = signed_blocks b ++ [block])).
Proof.
  intros Hs Hraise. split.
  - intros token.
    destruct (_finalize_block_unsigned (after_adds b [token]) s now Hs Hraise)
      as [block [b' [Hf [Hf' [Hsig Hh]]]]].
    unfold add_token, after_adds, add_leaves, with_signer in *.
    cbn [fold_left block_size current_tokens signer
         current_tree signed_blocks block_counter] in *.
    rewrite len_app_one.
    destruct (Z.leb_spec (block_size b) (len (current_tokens b) + 1)) as [H|H].
    + rewrite Hf, Hf'. cbn [bind]. exists (Some block), b'.
      split; [reflexivity|]. split; [reflexivity|].
      intros _. exists block. now split.
    + eexists. eexists. split; [reflexivity|]. split; [reflexivity|]. lia.
  - destruct (_finalize_block_unsigned b s now Hs Hraise)
      as [block [b' [Hf [Hf' [Hsig Hh]]]]].
    unfold flush. cbn [with_signer current_tokens].
    destruct (current_tokens b) as [|tok toks] eqn:Et; cbn [is_empty negb].
    + exists None, b. split; [reflexivity|].
      split; [reflexivity|]. congruence.
    + rewrite Hf, Hf'. cbn [bind]. exists (Some block), b'.
      split; [reflexivity|]. split; [reflexivity|].
      intros _. exists block. now split.
Qed.

(** ** [TokenBlocker]: the history *)

(** Every call either leaves the history alone and returns no block, or
    seals the tokens at hand into one block, appends it and returns it. *)
Lemma do_call_cases (b : TokenBlocker) (c : call) (now : float) :
  (exists b', do_call b c now = (Ok None, b') /\
              signed_blocks b' = signed_blocks b /\
              block_counter b' = block_counter b /\
              block_size b' = block_size b /\
              exists new_tokens,
                current_tokens b' = current_tokens b ++ new_tokens /\
                current_tree b' = add_leaves (current_tree b) new_tokens) \/
  (exists new_tokens root0,
     let b1 := after_adds b new_tokens in
     current_tokens b1 <> [] /\
     fst (get_root (current_tree b1)) = Ok root0 /\
     do_call b c now =
     (Ok (Some (sealed_block b1 root0 now)),
      after_seal b1 (sealed_block b1 root0 now))).
Proof.
  destruct c as [token|]; cbn [do_call].
  - destruct (Z_lt_le_dec (len (current_tokens b) + 1) (block_size b)) as [H|H].
    + left. rewrite add_token_open by assumption. eexists.
      split; [reflexivity|]. cbn [after_adds signed_blocks block_counter
                                  block_size current_tokens current_tree].
      repeat split. now exists [token].
    + right. destruct (add_token_seals b token now H) as [r [Hr Ha]].
      exists [token], r. cbv zeta in *. split; [|now split].
      cbn [after_adds current_tokens]. now destruct (current_tokens b).
  - destruct (current_tokens b) as [|tok toks] eqn:Et.
    + left. rewrite flush_empty by assumption. exists b.
      split; [reflexivity|]. repeat split. exists [].
      rewrite Et. unfold add_leaves. now cbn.
    + right. destruct (flush_seals b now) as [r [Hr Hf]]; [congruence|].
      assert (E : after_adds b [] = b).
      { unfold after_adds, add_leaves. cbn [fold_left].
        rewrite app_nil_r. now destruct b. }
      exists [], r. cbv zeta. rewrite E. split; [congruence|]. now split.
Qed.

Lemma seq_snoc (n : nat) : seq 0 (n + 1) = seq 0 n ++ [n].
Proof. now rewrite seq_app. Qed.

Lemma do_call_ids_in_order (b : TokenBlocker) (c : call) (now : float) :
  ids_in_order b ->
  ids_in_order (snd (do_call b c now)) /\
  signed_blocks (snd (do_call b c now)) =
  signed_blocks b ++ sealed [fst (do_call b c now)].
Proof.
  intros [Hc Hids].
  destruct (do_call_cases b c now)
    as [[b' [-> [Hh [Hn _]]]]|[toks [r [_ [_ ->]]]]]; cbn [fst snd sealed].
  - unfold ids_in_order. rewrite Hh, Hn, app_nil_r. now split.
  - split; [|reflexivity]. unfold ids_in_order.
    cbn [after_seal after_adds sealed_block signed_blocks block_counter
         current_tokens].
    rewrite len_app_one, length_app, map_app, seq_snoc, map_app, Hids.
    cbn [length map block_id]. split; [lia|].
    f_equal. f_equal. exact Hc.
Qed.

Lemma run_ids_in_order (calls : list (call * float)) :
  forall b,
    ids_in_order b ->
    ids_in_order (snd (run b calls)) /\
    signed_blocks (snd (run b calls)) =
    signed_blocks b ++ sealed (fst (run b calls)).
Proof.
  induction calls as [|[c now] calls IH]; intros b Hb; cbn [run].
  - cbn [fst snd sealed]. now rewrite app_nil_r.
  - destruct (do_call_ids_in_order b c now Hb) as [Hb1 Hh1].
    destruct (do_call b c now) as [r b1]. cbn [fst snd] in *.
    destruct (IH b1 Hb1) as [Hb2 Hh2].
    destruct (run b1 calls) as [rs b2]. cbn [fst snd] in *.
    split; [assumption|]. rewrite Hh2, Hh1, <- app_assoc. f_equal.
    cbn [sealed]. destruct r as [[block|]|e]; reflexivity.
Qed.

(** C7. Block ids: after any sequence of [add_token] and [flush] calls on
    a new attestor, [get_all_blocks] is the list of the blocks the calls
    returned, in call order, and their ids are [0, 1, ..., N-1] for the
    number [N] of these blocks; the counter stands at [N]. *)
Theorem block_ids_gap_free
    (size : Z) (sg : option Signer) (calls : list (call * float)) :
  let results := fst (run (TokenBlocker_init size sg) calls) in
  let b' := snd (run (TokenBlocker_init size sg) calls) in
  get_all_blocks b' = sealed results /\
  map block_id (get_all_blocks b') =
    map Z.of_nat (seq 0 (length (sealed results))) /\
  block_counter b' = len (sealed results).
Proof.
  cbv zeta. unfold get_all_blocks.
  destruct (run_ids_in_order calls (TokenBlocker_init size sg))
    as [[Hc Hids] Hh].
  { split; reflexivity. }
  cbn [TokenBlocker_init signed_blocks app] in Hh.
  rewrite <- Hh. now repeat split.
Qed.

(** ** [TokenBlocker]: the roots *)

Lemma add_leaves_block_tree (old_tokens new_tokens : list string) :
  add_leaves (block_tree old_tokens) new_tokens =
  block_tree (old_tokens ++ new_tokens).
Proof. unfold block_tree, add_leaves. now rewrite fold_left_app. Qed.

Lemma do_call_roots_match (b : TokenBlocker) (c : call) (now : float) :
  roots_match b -> roots_match (snd (do_call b c now)).
Proof.
  intros [Ht Hh].
  destruct (do_call_cases b c now)
    as [[b' [-> [Hh' [_ [_ [toks [Hct Htr]]]]]]]|[toks [r [Hne [Hr ->]]]]];
    cbn [fst snd]; unfold roots_match.
  - rewrite Hh', Hct, Htr, Ht. split; [apply add_leaves_block_tree|assumption].
  - cbn [after_seal current_tree current_tokens signed_blocks].
    split; [reflexivity|].
    apply Forall_app. split; [assumption|]. constructor; [|constructor].
    cbn [sealed_block tokens merkle_root]. split; [assumption|].
    unfold block_root. rewrite <- Hr.
    cbn [after_adds current_tree current_tokens].
    now rewrite Ht, add_leaves_block_tree.
Qed.

Lemma run_roots_match (calls : list (call * float)) :
  forall b, roots_match b -> roots_match (snd (run b calls)).
Proof.
  induction calls as [|[c now] calls IH]; intros b Hb; cbn [run].
  - assumption.
  - pose proof (do_call_roots_match b c now Hb) as Hb1.
    destruct (do_call b c now) as [r b1]. cbn [snd] in Hb1.
    specialize (IH b1 Hb1). now destruct (run b1 calls).
Qed.

Lemma _finalize_block_same_progress (b1 b2 : TokenBlocker) (now1 now2 : float) :
  same_progress b1 b2 ->
  same_progress (snd (_finalize_block b1 now1)) (snd (_finalize_block b2 now2)).
Proof.
  intros (Hs & Ht & Htr & Hc & Hh).
  destruct (_finalize_block_spec b1 now1) as [r1 [Hr1 ->]].
  destruct (_finalize_block_spec b2 now2) as [r2 [Hr2 ->]].
  assert (r2 = r1) by congruence. subst r2.
  cbn [snd]. unfold same_progress.
  cbn [after_seal block_size current_tokens current_tree block_counter
       signed_blocks].
  repeat split; try congruence.
  apply Forall2_app; [assumption|]. constructor; [|constructor].
  unfold same_content. cbn [sealed_block tokens merkle_root block_id]. auto.
Qed.

Lemma do_call_same_progress
    (b1 b2 : TokenBlocker) (c : call) (now1 now2 : float) :
  same_progress b1 b2 ->
  same_progress (snd (do_call b1 c now1)) (snd (do_call b2 c now2)).
Proof.
  intros H. pose proof H as (Hs & Ht & Htr & Hc & Hh).
  destruct c as [token|]; cbn [do_call].
  - unfold add_token.
    cbn [block_size current_tokens]. rewrite <- Hs, <- Ht.
    set (b1' := mkTokenBlocker _ (signer b1) _ _ _ _).
    set (b2' := mkTokenBlocker _ (signer b2) _ _ _ _).
    assert (H' : same_progress b1' b2').
    { unfold same_progress. subst b1' b2'.
      cbn [block_size current_tokens current_tree block_counter signed_blocks].
      rewrite Htr. repeat split; congruence || assumption. }
    destruct (_ <=? _).
    + pose proof (_finalize_block_same_progress b1' b2' now1 now2 H') as Hf.
      destruct (_finalize_block b1' now1), (_finalize_block b2' now2).
      exact Hf.
    + exact H'.
  - unfold flush. rewrite <- Ht.
    destruct (negb (is_empty (current_tokens b1))).
    + pose proof (_finalize_block_same_progress b1 b2 now1 now2 H) as Hf.
      destruct (_finalize_block b1 now1), (_finalize_block b2 now2).
      exact Hf.
    + exact H.
Qed.

Lemma run_same_progress (calls1 : list (call * float)) :
  forall (calls2 : list (call * float)) (b1 b2 : TokenBlocker),
    map fst calls1 = map fst calls2 ->
    same_progress b1 b2 ->
    same_progress (snd (run b1 calls1)) (snd (run b2 calls2)).
Proof.
  induction calls1 as [|[c now1] calls1 IH];
    intros [|[c' now2] calls2] b1 b2 Hcalls Hb; try discriminate.
  - assumption.
  - cbn [map fst] in Hcalls. injection Hcalls as <- Hcalls. cbn [run].
    pose proof (do_call_same_progress b1 b2 c now1 now2 Hb) as Hb'.
    destruct (do_call b1 c now1) as [r1 b1'], (do_call b2 c now2) as [r2 b2'].
    cbn [snd] in Hb'. specialize (IH calls2 b1' b2' Hcalls Hb').
    now destruct (run b1' calls1), (run b2' calls2).
Qed.

Lemma same_content_maps (h1 h2 : list SignedBlock) :
  Forall2 same_content h1 h2 ->
  map merkle_root h1 = map merkle_root h2 /\
  map tokens h1 = map tokens h2 /\
  map block_id h1 = map block_id h2.
Proof.
  induction 1 as [|x y l1 l2 (Ht & Hr & Hi) _ (IH1 & IH2 & IH3)]; cbn [map].
  - now repeat split.
  - repeat split; congruence.
Qed.

(** C8. Determinism of roots: two new attestors with the same block size
    that receive the same sequence of [add_token] and [flush] calls, with
    whatever signers and clock readings, end with histories that agree on
    the tokens, the root and the id of every block; and the root stored
    with a block is the root of the tree of that block's tokens alone. *)
Theorem root_determinism
    (size : Z) (sg1 sg2 : option Signer) (calls1 calls2 : list (call * float)) :
  map fst calls1 = map fst calls2 ->
  let h1 := get_all_blocks (snd (run (TokenBlocker_init size sg1) calls1)) in
  let h2 := get_all_blocks (snd (run (TokenBlocker_init size sg2) calls2)) in
  map merkle_root h1 = map merkle_root h2 /\
  map tokens h1 = map tokens h2 /\
  map block_id h1 = map block_id h2 /\
  Forall (fun block => block_root (tokens block) = Ok (merkle_root block)) h1.
Proof.
  intros Hcalls. cbv zeta. unfold get_all_blocks.
  assert (Hsp : same_progress (snd (run (TokenBlocker_init size sg1) calls1))
                              (snd (run (TokenBlocker_init size sg2) calls2))).
  { apply run_same_progress; [assumption|].
    unfold same_progress. cbn. repeat split. constructor. }
  destruct Hsp as (_ & _ & _ & _ & Hh).
  assert (Hrm : roots_match (snd (run (TokenBlocker_init size sg1) calls1))).
  { apply run_roots_match. split; [reflexivity|constructor]. }
  destruct Hrm as [_ Hroots].
  destruct (same_content_maps _ _ Hh) as (Hm & Ht & Hi).
  repeat split; try assumption.
  eapply Forall_impl; [|exact Hroots]. cbn. tauto.
Qed.

(** ** Further properties of [MerkleTree] *)

(** X1. [add_leaf] returns the position of the new leaf: the hash of the
    data is stored there, the leaves that were there keep their
    positions, and the levels of an earlier [build] are not touched. *)
Theorem add_leaf_returns_index (t : MerkleTree) (data : string) :
  let i := fst (add_leaf t data) in
  let t' := snd (add_leaf t data) in
  i = len (leaves t) /\
  py_index (leaves t') i = Ok (hash_fn data) /\
  (forall j : nat, Z.of_nat j < len (leaves t) ->
     py_index (leaves t') (Z.of_nat j) = py_index (leaves t) (Z.of_nat j)) /\
  tree t' = tree t.
Proof.
  cbv zeta. unfold add_leaf. cbn [fst snd leaves tree].
  rewrite len_app_one. split; [lia|]. split; [|split; [|reflexivity]].
  - replace (len (leaves t) + 1 - 1) with (Z.of_nat (length (leaves t)))
      by (unfold len; lia).
    rewrite py_index_nat, nth_error_app2, Nat.sub_diag by lia. reflexivity.
  - intros j Hj. rewrite !py_index_nat, nth_error_app1; [reflexivity|].
    unfold len in Hj. lia.
Qed.

(** X2. [get_root] is idempotent on every tree state: it returns a root,
    and calling it again returns the same root and changes nothing. *)
Theorem get_root_idempotent (t : MerkleTree) :
  (exists r, fst (get_root t) = Ok r) /\
  get_root (snd (get_root t)) = get_root t.
Proof.
  assert (B : (exists r, fst (build t) = Ok r) /\
              get_root (snd (build t)) = build t \/
              leaves t = [] /\ build t = (Ok (hash_fn ""), t)).
  { destruct (leaves t) as [|a l] eqn:El.
    - right. split; [reflexivity|]. now apply build_empty.
    - left. destruct (build_nonempty t) as [r [Hr Hb]]; [congruence|].
      rewrite Hb. cbn [fst snd]. split; [now exists r|].
      now apply get_root_built. }
  unfold get_root at 1 3 4.
  destruct (tree t) as [|a l] eqn:Et; cbn [is_empty].
  - destruct B as [[Hr Hb]|[El Hb]]; [now split|].
    rewrite Hb. cbn [fst snd]. split; [eauto|].
    unfold get_root. now rewrite Et.
  - destruct (@exists_last _ (a :: l)) as [pre [lvl Epre]]; [congruence|].
    rewrite Epre, py_index_last.
    destruct (Z.eqb_spec (len lvl) 1) as [H1|H1]; cbn [negb].
    + destruct lvl as [|r [|? ?]]; try (unfold len in H1; cbn in H1; lia).
      cbn [bind fst snd]. split; [exists r; reflexivity|].
      unfold get_root. rewrite Et. cbn [is_empty].
      rewrite Epre, py_index_last. reflexivity.
    + destruct B as [[Hr Hb]|[El Hb]]; [now split|].
      rewrite Hb. cbn [fst snd]. split; [eauto|].
      unfold get_root. rewrite Et. cbn [is_empty].
      rewrite Epre, py_index_last.
      destruct (Z.eqb_spec (len lvl) 1); [contradiction|]. exact Hb.
Qed.

Lemma cleared_tree_behaviour (t : MerkleTree) (index : Z) :
  get_root (clear t) = (Ok (hash_fn ""), MerkleTree_init) /\
  get_proof (clear t) index = (Raise IndexError, MerkleTree_init).
Proof.
  split; [reflexivity|].
  unfold get_proof, clear. cbn [tree is_empty build leaves all_but_last
                                removelast proof_loop].
  rewrite py_index_outside; [reflexivity|]. unfold len. cbn. lia.
Qed.

(** X8. [verify_proof] reads no more bits of [leaf_index] than the proof
    has siblings: a proof is accepted or refused alike under every index
    that differs by a multiple of [2 ** len(siblings)]. *)
Theorem verify_proof_index_modulo
    (leaf : string) (i k : Z) (sibs : list string) (r : string) :
  verify_proof (mkMerkleProof leaf (i + k * 2 ^ len sibs) sibs r) =
  verify_proof (mkMerkleProof leaf i sibs r).
Proof.
  unfold verify_proof. cbn [siblings leaf_hash leaf_index root]. f_equal.
  revert leaf i k. induction sibs as [|sib sibs IH]; intros leaf i k.
  - reflexivity.
  - cbn [verify_loop].
    assert (E : len (sib :: sibs) = len sibs + 1)
      by (unfold len; cbn [length]; lia).
    rewrite E, Z.pow_add_r by (unfold len; lia).
    replace (i + k * (2 ^ len sibs * 2 ^ 1)) with (i + (k * 2 ^ len sibs) * 2)
      by (change (2 ^ 1) with 2; ring).
    rewrite Z_mod_plus_full, Z.div_add by lia. apply IH.
Qed.

Lemma next_level_app_even (l r : list string) :
  Nat.Even (length l) -> next_level (l ++ r) = next_level l ++ next_level r.
Proof.
  revert l. fix IH 1. intros [|a [|b l]] Hev.
  - reflexivity.
  - destruct Hev as [k Hk]. cbn in Hk. lia.
  - cbn [app next_level]. rewrite IH; [reflexivity|].
    destruct Hev as [k Hk]. cbn [length] in Hk. exists (k - 1)%nat. lia.
Qed.

Lemma block_root_top (items : list string) :
  items <> [] ->
  exists r, top (map hash_fn items) = [r] /\ block_root items = Ok r.
Proof.
  intros Hne. unfold block_root. rewrite block_tree_spec.
  destruct (build_nonempty (mkMerkleTree (map hash_fn items) [])) as [r [Hr Hb]].
  { cbn [leaves]. now destruct items. }
  exists r. split; [exact Hr|]. unfold get_root. cbn [tree is_empty].
  now rewrite Hb.
Qed.

(** X9. The root does not tell how often the last item occurs: when a
    block has an odd number of items, three or more, repeating its last
    item once more gives the same root. *)
Theorem duplicate_last_item_same_root (items : list string) (x : string) :
  items <> [] ->
  Nat.Even (length items) ->
  block_root (items ++ [x]) = block_root (items ++ [x; x]).
Proof.
  intros Hne Hev.
  destruct (block_root_top (items ++ [x])) as [r [Hr ->]];
    [now destruct items|].
  destruct (block_root_top (items ++ [x; x])) as [r' [Hr' ->]];
    [now destruct items|].
  assert (Hl : (2 <= length items)%nat).
  { destruct items as [|a [|b l]]; [congruence| |cbn; lia].
    destruct Hev as [k Hk]. cbn in Hk. lia. }
  rewrite map_app in Hr, Hr'. cbn [map] in Hr, Hr'.
  destruct (levels_step (map hash_fn items ++ [hash_fn x])) as [E _].
  { unfold len. rewrite length_app, length_map. cbn. lia. }
  destruct (levels_step (map hash_fn items ++ [hash_fn x; hash_fn x])) as [E' _].
  { unfold len. rewrite length_app, length_map. cbn. lia. }
  rewrite E in Hr. rewrite E' in Hr'.
  rewrite next_level_app_even in Hr, Hr' by now rewrite length_map.
  cbn [next_level] in Hr, Hr'. congruence.
Qed.

Lemma levels_linked_upper (l : list string) :
  l <> [] -> levels_linked (l :: upper l).
Proof.
  induction l as [l H|l H IH] using build_while_ind; intros Hne.
  - destruct (levels_stop l H) as [_ ->]. cbn [levels_linked].
    destruct l as [|a [|? ?]]; [congruence|reflexivity|].
    unfold len in H. cbn in H. lia.
  - destruct (levels_step l H) as [_ ->]. cbn [levels_linked].
    split; [unfold len in H; lia|]. split; [reflexivity|].
    apply IH. now apply next_level_nonempty.
Qed.

(** X3. The tree [build] stores for a tree with leaves: its first level is
    the list of leaves, every further level is the pairing of the level
    below, and the last level is one node; the leaves are unchanged. *)
Theorem build_tree_shape (t : MerkleTree) :
  leaves t <> [] ->
  exists higher,
    tree (snd (build t)) = leaves t :: higher /\
    levels_linked (leaves t :: higher) /\
    leaves (snd (build t)) = leaves t.
Proof.
  intros Hne. destruct (build_nonempty t Hne) as [r [_ ->]].
  exists (upper (leaves t)). cbn [snd tree leaves].
  split; [reflexivity|]. split; [now apply levels_linked_upper|reflexivity].
Qed.

Lemma div2_bounds (n : nat) :
  (n <= 2 * Nat.div2 (S n) <= n + 1)%nat.
Proof.
  revert n. fix IH 1. intros [|[|n]]; [cbn; lia|cbn; lia|].
  change (Nat.div2 (S (S (S n)))) with (S (Nat.div2 (S n))).
  specialize (IH n). lia.
Qed.

Lemma depth_bounds (l : list string) :
  l <> [] ->
  (length l <= 2 ^ length (upper l))%nat /\
  (length (upper l) <> 0 -> 2 ^ (length (upper l) - 1) < length l)%nat.
Proof.
  induction l as [l H|l H IH] using build_while_ind; intros Hne.
  - destruct (levels_stop l H) as [_ ->]. cbn. unfold len in H. split; lia.
  - destruct (levels_step l H) as [_ ->]. cbn [length].
    destruct (IH (next_level_nonempty l Hne)) as [Hup Hlow].
    rewrite next_level_length in Hup, Hlow.
    pose proof (div2_bounds (length l)) as Hd.
    replace (S (length (upper (next_level l))) - 1)%nat
      with (length (upper (next_level l))) by lia.
    rewrite Nat.pow_succ_r'. split; [lia|]. intros _.
    destruct (length (upper (next_level l))) as [|d] eqn:Ed.
    + cbn. unfold len in H. lia.
    + replace (S d - 1)%nat with d in Hlow by lia.
      rewrite Nat.pow_succ_r'. specialize (Hlow ltac:(lia)). lia.
Qed.

Lemma proof_loop_length (levels : list (list string)) :
  forall (i : Z) (acc out : list string),
    proof_loop levels i acc = Ok out ->
    length out = (length acc + length levels)%nat.
Proof.
  induction levels as [|level levels IH]; intros i acc out; cbn [proof_loop].
  - intros [= <-]. cbn. lia.
  - destruct (if _ <? len level then _ else _) as [x|e]; cbn [bind];
      [|discriminate].
    intros H. apply IH in H. rewrite length_app in H. cbn [length] in *. lia.
Qed.

(** X4. Proof size: a proof [get_proof] returns for a block of [n] items
    has as many siblings as the built tree has levels above the leaves,
    that is the least [d] with [n <= 2 ** d]. *)
Theorem proof_size
    (items : list string) (i : Z) (p : MerkleProof) (t' : MerkleTree) :
  get_proof (block_tree items) i = (Ok p, t') ->
  length (tree t') = S (length (siblings p)) /\
  (length items <= 2 ^ length (siblings p))%nat /\
  (siblings p <> [] -> 2 ^ (length (siblings p) - 1) < length items)%nat.
Proof.
  rewrite block_tree_spec. unfold get_proof. cbn [tree is_empty].
  destruct items as [|x items].
  { cbn. rewrite py_index_outside by (unfold len; cbn; lia). discriminate. }
  set (l := map hash_fn (x :: items)).
  destruct (build_nonempty (mkMerkleTree l [])) as [r [Hr ->]];
    [discriminate|].
  cbn [tree leaves].
  destruct (proof_loop _ i []) as [sibs|e] eqn:Ep; [|discriminate].
  destruct (py_index l i) as [v|e]; [|discriminate].
  rewrite (get_root_built l l r Hr). cbn [bind].
  intros [= <- <-]. cbn [siblings tree].
  apply proof_loop_length in Ep. cbn [length Nat.add] in Ep.
  assert (El : length (all_but_last (l :: upper l)) = length (upper l)).
  { pose proof (f_equal (@length _) (levels_split l)) as E.
    rewrite length_app in E. cbn [length] in E. lia. }
  rewrite El in Ep. cbn [length]. rewrite Ep.
  destruct (depth_bounds l) as [Hup Hlow]; [discriminate|].
  subst l. rewrite length_map in Hup, Hlow.
  split; [reflexivity|]. split; [exact Hup|].
  intros Hs. apply Hlow. destruct sibs; [congruence|]. cbn [length] in Ep. lia.
Qed.

Lemma get_proof_built_more (l : list string) (m : nat) (v : string) :
  nth_error l m = Some v ->
  exists sibs r,
    verify_loop sibs v (Z.of_nat m) = r /\
    forall extra,
      get_proof (mkMerkleTree (l ++ extra) (l :: upper l)) (Z.of_nat m) =
      (Ok (mkMerkleProof v (Z.of_nat m) sibs r),
       mkMerkleTree (l ++ extra) (l :: upper l)).
Proof.
  intros Hv. destruct (proof_path l m v [] Hv) as [sibs [Hp Ht]].
  exists sibs, (verify_loop sibs v (Z.of_nat m)).
  split; [reflexivity|]. intros extra.
  unfold get_proof. cbn [tree is_empty leaves]. rewrite Hp. cbn [app].
  rewrite py_index_nat, nth_error_app1, Hv
    by (apply nth_error_Some; congruence).
  rewrite (get_root_built l (l ++ extra) _ Ht). reflexivity.
Qed.

(** X5. Proofs outlive later leaves: once a block of items is built,
    [get_proof] for one of these items returns a proof that
    [verify_proof] accepts, and it returns the very same proof after any
    number of further [add_leaf] calls. *)
Theorem old_proofs_survive_add_leaf
    (items more : list string) (i : Z) :
  0 <= i < len items ->
  let t1 := snd (build (block_tree items)) in
  let t2 := add_leaves t1 more in
  exists p,
    get_proof t1 i = (Ok p, t1) /\
    get_proof t2 i = (Ok p, t2) /\
    verify_proof p = true.
Proof.
  intros Hi. cbv zeta. rewrite block_tree_spec.
  set (l := map hash_fn items).
  assert (Hm : (Z.to_nat i < length l)%nat).
  { subst l. rewrite length_map. unfold len in Hi. lia. }
  destruct (nth_error l (Z.to_nat i)) as [v|] eqn:Ev.
  2:{ apply nth_error_None in Ev. lia. }
  destruct (build_nonempty (mkMerkleTree l [])) as [r [_ ->]].
  { cbn [leaves]. destruct l; [cbn in Hm; lia|discriminate]. }
  cbn [snd leaves]. rewrite add_leaves_spec. cbn [leaves tree].
  destruct (get_proof_built_more l (Z.to_nat i) v Ev) as [sibs [r' [Hver Hg]]].
  rewrite Z2Nat.id in * by lia.
  exists (mkMerkleProof v i sibs r'). split; [|split].
  - specialize (Hg []). now rewrite app_nil_r in Hg.
  - apply Hg.
  - unfold verify_proof. cbn [siblings leaf_hash leaf_index root].
    rewrite Hver. apply String.eqb_refl.
Qed.

Lemma run_tree_built (l : list string) (r : string) (calls : list tree_call) :
  top l = [r] ->
  forall lv,
    Forall (fun x => x = Ok r)
           (fst (run_tree (mkMerkleTree lv (l :: upper l)) calls)) /\
    snd (run_tree (mkMerkleTree lv (l :: upper l)) calls) =
    mkMerkleTree (lv ++ map hash_fn (added_data calls)) (l :: upper l).
Proof.
  intros Hr. induction calls as [|[data|] calls IH]; intros lv.
  - cbn. now rewrite app_nil_r.
  - cbn [run_tree added_data map add_leaf snd leaves tree].
    destruct (IH (lv ++ [hash_fn data])) as [H1 H2].
    split; [exact H1|]. rewrite H2. now rewrite <- app_assoc.
  - cbn [run_tree added_data]. rewrite (get_root_built l lv r Hr).
    destruct (IH lv) as [H1 H2].
    destruct (run_tree _ calls) as [rs t2]. cbn [fst snd] in *.
    split; [now constructor|exact H2].
Qed.

(** X6. The root freezes: after the first [get_root] on a tree with
    leaves, every later [get_root] returns that same root, whatever
    [add_leaf] calls come in between; the new leaves are stored but the
    levels are never rebuilt. *)
Theorem root_frozen_after_first_get_root
    (items : list string) (calls : list tree_call) :
  items <> [] ->
  let t1 := snd (get_root (block_tree items)) in
  Forall (fun r => r = block_root items) (fst (run_tree t1 calls)) /\
  tree (snd (run_tree t1 calls)) = tree t1 /\
  leaves (snd (run_tree t1 calls)) =
  map hash_fn items ++ map hash_fn (added_data calls).
Proof.
  intros Hne. cbv zeta.
  destruct (block_root_top items Hne) as [r [Hr Hroot]]. rewrite Hroot.
  assert (Et1 : snd (get_root (block_tree items)) =
                mkMerkleTree (map hash_fn items)
                             (map hash_fn items :: upper (map hash_fn items))).
  { rewrite block_tree_spec. unfold get_root. cbn [tree is_empty].
    destruct (build_nonempty (mkMerkleTree (map hash_fn items) []))
      as [r' [_ ->]]; [cbn [leaves]; now destruct items|reflexivity]. }
  rewrite Et1.
  destruct (run_tree_built (map hash_fn items) r calls Hr (map hash_fn items))
    as [H1 H2].
  rewrite H2. cbn [tree leaves]. now repeat split.
Qed.

(** ** Further properties of [TokenBlocker] *)

Lemma after_adds_nil (b : TokenBlocker) : after_adds b [] = b.
Proof.
  unfold after_adds, add_leaves. cbn [fold_left].
  rewrite app_nil_r. now destruct b.
Qed.

(** What a call does, spelled out: it accumulates, or it seals all the
    tokens at hand. *)
Lemma do_call_explicit (b : TokenBlocker) (c : call) (now : float) :
  let b1 := after_adds b (call_tokens c) in
  (do_call b c now = (Ok None, b1) /\
   ((exists token, c = AddToken token /\
                   len (current_tokens b) + 1 < block_size b) \/
    (c = Flush /\ current_tokens b = []))) \/
  (exists root0,
     current_tokens b1 <> [] /\
     fst (get_root (current_tree b1)) = Ok root0 /\
     do_call b c now =
       (Ok (Some (sealed_block b1 root0 now)),
        after_seal b1 (sealed_block b1 root0 now)) /\
     (forall token, c = AddToken token ->
                    block_size b <= len (current_tokens b) + 1)).
Proof.
  cbv zeta. destruct c as [token|]; cbn [do_call call_tokens].
  - destruct (Z_lt_le_dec (len (current_tokens b) + 1) (block_size b)) as [H|H].
    + left. split; [now apply add_token_open|]. left. now exists token.
    + right. destruct (add_token_seals b token now H) as [r [Hr Ha]].
      exists r. cbv zeta in Ha. split; [|split; [exact Hr|split; [exact Ha|]]].
      * cbn [after_adds current_tokens]. now destruct (current_tokens b).
      * intros ? _. exact H.
  - rewrite after_adds_nil. destruct (current_tokens b) as [|tok toks] eqn:Et.
    + left. split; [now apply flush_empty|]. right. now split.
    + right. destruct (flush_seals b now) as [r [Hr Hf]]; [congruence|].
      exists r. split; [congruence|]. split; [exact Hr|].
      split; [exact Hf|]. discriminate.
Qed.

Lemma run_invariant (P : TokenBlocker -> Prop) :
  (forall b c now, P b -> P (snd (do_call b c now))) ->
  forall calls b, P b -> P (snd (run b calls)).
Proof.
  intros Hstep calls. induction calls as [|[c now] calls IH]; intros b Hb.
  - exact Hb.
  - cbn [run]. specialize (Hstep b c now Hb).
    destruct (do_call b c now) as [r b1]. cbn [snd] in Hstep.
    specialize (IH b1 Hstep). now destruct (run b1 calls).
Qed.

(** X7. Nothing is kept for proofs: whenever a call returns a block, the
    attestor's tree is empty afterwards, so [get_proof] on it raises
    [IndexError] for every index and [get_root] gives the hash of the
    empty string; no proof for a sealed block can be had from it. *)
Theorem no_proofs_after_sealing
    (b b' : TokenBlocker) (c : call) (now : float) (block : SignedBlock)
    (index : Z) :
  do_call b c now = (Ok (Some block), b') ->
  current_tree b' = MerkleTree_init /\
  get_proof (current_tree b') index = (Raise IndexError, MerkleTree_init) /\
  get_root (current_tree b') = (Ok (hash_fn ""), MerkleTree_init).
Proof.
  intros H.
  destruct (do_call_explicit b c now) as [[H' _]|[r (_ & _ & H' & _)]];
    rewrite H' in H; [discriminate|].
  injection H as _ <-. cbn [after_seal current_tree].
  split; [reflexivity|].
  destruct (cleared_tree_behaviour MerkleTree_init index) as [Hr Hp].
  now split.
Qed.

Lemma run_small_block_size (items : list (string * float)) :
  forall b,
    block_size b <= 1 ->
    current_tokens b = [] ->
    map tokens (signed_blocks (snd (run b (add_all items)))) =
      map tokens (signed_blocks b) ++ map (fun item => [fst item]) items /\
    current_tokens (snd (run b (add_all items))) = [] /\
    Forall (fun r => exists block, r = Ok (Some block))
           (fst (run b (add_all items))).
Proof.
  induction items as [|[token now] items IH]; intros b Hs Hopen.
  - cbn. rewrite app_nil_r. now repeat split.
  - cbn [add_all map run do_call fst snd]. fold (add_all items).
    destruct (add_token_seals b token now) as [r [_ Ha]].
    { rewrite Hopen. unfold len. cbn. lia. }
    cbv zeta in Ha. rewrite Ha.
    set (block := sealed_block (after_adds b [token]) r now) in *.
    destruct (IH (after_seal (after_adds b [token]) block)) as (H1 & H2 & H3);
      [exact Hs|reflexivity|].
    destruct (run _ (add_all items)) as [rs b2]. cbn [fst snd] in *.
    split; [|split; [exact H2|constructor; [now exists block|exact H3]]].
    rewrite H1. cbn [after_seal after_adds signed_blocks].
    rewrite map_app, <- app_assoc. cbn [map app block sealed_block tokens
                                        after_adds current_tokens].
    now rewrite Hopen.
Qed.

(** X10. A block size of 1, 0 or below: every [add_token] on a new
    attestor seals at once, so the history is one single-token block per
    token, in call order, and nothing stays in the open block. *)
Theorem small_block_size_seals_every_token
    (size : Z) (sg : option Signer) (items : list (string * float)) :
  size <= 1 ->
  let outcome := run (TokenBlocker_init size sg) (add_all items) in
  map tokens (get_all_blocks (snd outcome)) =
    map (fun item => [fst item]) items /\
  current_tokens (snd outcome) = [] /\
  Forall (fun r => exists block, r = Ok (Some block)) (fst outcome).
Proof.
  intros Hs. cbv zeta. unfold get_all_blocks.
  now apply (run_small_block_size items (TokenBlocker_init size sg)).
Qed.

Lemma do_call_conserves (b : TokenBlocker) (c : call) (now : float) :
  concat (map tokens (signed_blocks (snd (do_call b c now)))) ++
  current_tokens (snd (do_call b c now)) =
  concat (map tokens (signed_blocks b)) ++ current_tokens b ++ call_tokens c.
Proof.
  destruct (do_call_explicit b c now) as [[-> _]|[r (_ & _ & -> & _)]];
    cbn [snd after_seal after_adds signed_blocks current_tokens].
  - reflexivity.
  - rewrite map_app, concat_app. cbn [map concat sealed_block tokens
                                      after_adds current_tokens].
    now rewrite !app_nil_r.
Qed.

Lemma run_conserves (calls : list (call * float)) :
  forall b,
    concat (map tokens (signed_blocks (snd (run b calls)))) ++
    current_tokens (snd (run b calls)) =
    concat (map tokens (signed_blocks b)) ++ current_tokens b ++
    added_tokens calls.
Proof.
  induction calls as [|[c now] calls IH]; intros b.
  - cbn. now rewrite app_nil_r.
  - cbn [run added_tokens flat_map fst].
    pose proof (do_call_conserves b c now) as Hc.
    destruct (do_call b c now) as [r b1]. cbn [snd] in Hc.
    specialize (IH b1). destruct (run b1 calls) as [rs b2]. cbn [snd] in *.
    fold (added_tokens calls). rewrite IH, app_assoc, Hc.
    now rewrite <- !app_assoc.
Qed.

(** X11. No token is lost, repeated or reordered: after any sequence of
    calls, the tokens of the sealed blocks in history order, followed by
    the tokens of the open block, are the tokens that were there before
    followed by the tokens added, in call order. *)
Theorem tokens_conserved (calls : list (call * float)) (b : TokenBlocker) :
  let b' := snd (run b calls) in
  concat (map tokens (get_all_blocks b')) ++ current_tokens b' =
  concat (map tokens (get_all_blocks b)) ++ current_tokens b ++
  added_tokens calls.
Proof. cbv zeta. unfold get_all_blocks. apply run_conserves. Qed.

(** X12. Block sizes: on a new attestor with [block_size >= 1], after any
    sequence of calls every sealed block holds at least one and at most
    [block_size] tokens, and the open block holds fewer than
    [block_size]. *)
Theorem block_sizes_bounded
    (size : Z) (sg : option Signer) (calls : list (call * float)) :
  1 <= size ->
  let b' := snd (run (TokenBlocker_init size sg) calls) in
  len (current_tokens b') < size /\
  Forall (fun block => 1 <= len (tokens block) <= size) (get_all_blocks b').
Proof.
  intros Hs. cbv zeta. unfold get_all_blocks.
  apply (run_invariant
           (fun b => block_size b = size /\
                     len (current_tokens b) < size /\
                     Forall (fun block => 1 <= len (tokens block) <= size)
                            (signed_blocks b))
           ).
  - clear calls. intros b c now (Hbs & Hopen & Hh).
    destruct (do_call_explicit b c now)
      as [[-> Hcase]|[r (Hne & _ & -> & Hcase)]];
      cbn [snd after_seal after_adds block_size current_tokens signed_blocks].
    + split; [exact Hbs|]. split; [|exact Hh].
      destruct Hcase as [[token [-> H]]|[-> ->]]; cbn [call_tokens].
      * rewrite len_app_one. lia.
      * cbn [app]. unfold len. cbn. lia.
    + split; [exact Hbs|]. split; [unfold len; cbn; lia|].
      apply Forall_app. split; [exact Hh|]. constructor; [|constructor].
      cbn [sealed_block tokens after_adds current_tokens] in *.
      destruct c as [token|]; cbn [call_tokens] in *.
      * rewrite len_app_one.
        assert (0 <= len (current_tokens b)) by apply Nat2Z.is_nonneg. lia.
      * rewrite app_nil_r in *. split; [|lia].
        destruct (current_tokens b); [congruence|]. unfold len. cbn. lia.
  - split; [reflexivity|]. split; [unfold len; cbn; lia|constructor].
Qed.

Lemma run_signatures (sg : option Signer) (calls : list (call * float)) :
  forall b,
    signer b = sg ->
    Forall (fun block => signature block = sign_root sg (merkle_root block))
           (signed_blocks b) ->
    Forall (fun block => signature block = sign_root sg (merkle_root block))
           (signed_blocks (snd (run b calls))).
Proof.
  intros b Hsg Hh.
  apply (run_invariant
           (fun b => signer b = sg /\
                     Forall (fun block => signature block =
                                          sign_root sg (merkle_root block))
                            (signed_blocks b))); [|now split].
  clear. intros b c now (Hsg & Hh).
  destruct (do_call_explicit b c now) as [[-> _]|[r (_ & _ & -> & _)]];
    cbn [snd after_seal after_adds signer signed_blocks].
  - now split.
  - split; [exact Hsg|]. apply Forall_app. split; [exact Hh|].
    constructor; [|constructor].
    cbn [sealed_block signature merkle_root after_adds signer].
    now rewrite Hsg.
Qed.


Lemma run_add_all_count (items : list (string * float)) :
  forall b,
    1 <= block_size b ->
    len (current_tokens b) < block_size b ->
    let b' := snd (run b (add_all items)) in
    block_size b' = block_size b /\
    len (current_tokens b') < block_size b /\
    block_size b * len (signed_blocks b') + len (current_tokens b') =
    block_size b * len (signed_blocks b) + len (current_tokens b) + len items.
Proof.
  induction items as [|[token now] items IH]; intros b Hs Hopen; cbv zeta.
  - cbn [add_all map run snd]. change (@len (string * float) []) with 0. lia.
  - cbn [add_all map run fst snd]. fold (add_all items).
    assert (Hl : len ((token, now) :: items) = len items + 1)
      by (unfold len; cbn [length]; lia).
    assert (H0 : 0 <= len (current_tokens b)) by apply Nat2Z.is_nonneg.
    destruct (do_call_explicit b (AddToken token) now)
      as [[-> Hcase]|[r (_ & _ & -> & Hcase)]]; cbn [call_tokens] in *.
    + destruct Hcase as [[token' [[= <-] H]]|[[=] _]].
      specialize (IH (after_adds b [token])). cbv zeta in IH.
      cbn [after_adds block_size current_tokens signed_blocks] in IH.
      rewrite len_app_one in IH.
      destruct IH as (I1 & I2 & I3); [lia|lia|].
      destruct (run _ (add_all items)) as [rs b2]. cbn [snd] in *. lia.
    + specialize (Hcase token eq_refl).
      set (block := sealed_block (after_adds b [token]) r now) in *.
      specialize (IH (after_seal (after_adds b [token]) block)).
      cbv zeta in IH.
      cbn [after_seal after_adds block_size current_tokens signed_blocks] in IH.
      rewrite len_app_one in IH. change (@len string []) with 0 in IH.
      destruct IH as (I1 & I2 & I3); [lia|lia|].
      destruct (run _ (add_all items)) as [rs b2]. cbn [snd] in *. nia.
Qed.

(** X14. Counting: on a new attestor with [block_size >= 1], [n] calls of
    [add_token] leave [n // block_size] sealed blocks in the history and
    [n % block_size] tokens in the open block. *)
Theorem blocks_after_n_tokens
    (size : Z) (sg : option Signer) (items : list (string * float)) :
  1 <= size ->
  let b' := snd (run (TokenBlocker_init size sg) (add_all items)) in
  len (get_all_blocks b') = len items / size /\
  len (current_tokens b') = len items mod size.
Proof.
  intros Hs. cbv zeta. unfold get_all_blocks.
  destruct (run_add_all_count items (TokenBlocker_init size sg))
    as (_ & H2 & H3).
  { exact Hs. }
  { cbn. lia. }
  cbn [TokenBlocker_init block_size signed_blocks current_tokens] in H2, H3.
  change (@len string []) with 0 in H3.
  change (@len SignedBlock []) with 0 in H3.
  set (b' := snd (run _ _)) in *.
  assert (H0 : 0 <= len (current_tokens b')) by apply Nat2Z.is_nonneg.
  split.
  - apply Z.div_unique with (r := len (current_tokens b')); lia.
  - apply Z.mod_unique with (q := len (signed_blocks b')); lia.
Qed.

End Merkle.

(** ** Concrete runs *)

(** C10 as stated fails when the earlier [build()] ran on a tree without
    leaves: that call returns the hash of the empty string and stores no
    tree, so the next [get_root()] builds over the current leaves. *)
Lemma stale_root_not_after_empty_build :
  ~ (forall (hash_fn : string -> string) (t t1 : MerkleTree)
            (r : result string) (data : string),
        build hash_fn t = (r, t1) ->
        fst (get_root hash_fn (add_leaves hash_fn t1 [data])) = r).
Proof.
  intros H.
  specialize (H tag_hash MerkleTree_init MerkleTree_init (Ok "#"%string)
                "a"%string eq_refl).
  vm_compute in H. discriminate H.
Qed.

Lemma stale_root_after_add_leaf_witness :
  let t := block_tree tag_hash ["a"%string] in
  leaves t <> [] /\
  get_root tag_hash (add_leaves tag_hash (snd (build tag_hash t)) ["b"%string]) =
  (Ok "#a"%string,
   mkMerkleTree ["#a"%string; "#b"%string] [["#a"%string]]) /\
  block_root tag_hash ["a"%string; "b"%string] = Ok "##a#b"%string.
Proof.
  split; [discriminate|]. split; [|reflexivity].
  apply (stale_root_after_add_leaf tag_hash
           (block_tree tag_hash ["a"%string])
           (snd (build tag_hash (block_tree tag_hash ["a"%string])))
           (Ok "#a"%string) "b"%string []).
  - discriminate.
  - reflexivity.
Defined.

(** C6 as stated fails on a negative subscript: Python counts it from
    the end of the list, and [get_proof(-1)] on a one-leaf tree returns a
    proof. *)
Lemma get_proof_negative_index_returns :
  ~ (forall (hash_fn : string -> string) (t : MerkleTree) (index : Z),
        ~ (0 <= index < len (leaves t)) ->
        exists e, fst (get_proof hash_fn t index) = Raise e).
Proof.
  intros H.
  destruct (H tag_hash (block_tree tag_hash ["a"%string]) (-1)) as [e He].
  - vm_compute. intros [H0 _]. apply H0. reflexivity.
  - vm_compute in He. discriminate He.
Qed.

Lemma get_proof_index_out_of_range_witness :
  fst (get_proof tag_hash (block_tree tag_hash ["a"%string; "b"%string]) 2) =
  Raise IndexError.
Proof.
  apply get_proof_index_out_of_range. left. vm_compute. discriminate.
Defined.

Lemma proof_round_trip_witness :
  exists p t',
    get_proof tag_hash (block_tree tag_hash ["a"; "b"; "c"]%string) 2 = (Ok p, t') /\
    verify_proof tag_hash p = true /\
    leaf_index p = 2 /\
    py_index (map tag_hash ["a"; "b"; "c"]%string) 2 = Ok (leaf_hash p) /\
    block_root tag_hash ["a"; "b"; "c"]%string = Ok (root p) /\
    get_proof tag_hash t' 2 = (Ok p, t').
Proof.
  apply proof_round_trip.
  - discriminate.
  - unfold len. simpl. lia.
Defined.

Lemma odd_node_duplication_witness :
  next_level tag_hash (["a"%string; "b"%string] ++ ["c"%string]) =
  next_level tag_hash ["a"%string; "b"%string] ++
  [_combine tag_hash "c"%string "c"%string].
Proof.
  apply (proj2 (odd_node_duplication tag_hash)). exists 1%nat. reflexivity.
Defined.

Lemma sealing_trigger_witness :
  let b := TokenBlocker_init 2 None in
  let items := [("a"%string, 0%float); ("b"%string, 1%float)] in
  exists block b',
    run tag_hash b (add_all items) =
      (repeat (Ok None) (length items - 1) ++ [Ok (Some block)], b') /\
    tokens block = map fst items /\
    len (tokens block) = block_size b /\
    block_id block = block_counter b /\
    current_tokens b' = [] /\
    current_tree b' = MerkleTree_init /\
    signed_blocks b' = signed_blocks b ++ [block] /\
    block_size b' = block_size b.
Proof.
  apply (sealing_trigger tag_hash (TokenBlocker_init 2 None)
           [("a"%string, 0%float); ("b"%string, 1%float)]).
  - simpl. lia.
  - reflexivity.
  - reflexivity.
Defined.

Lemma partial_flush_witness :
  let b := TokenBlocker_init 4 None in
  let items := [("a"%string, 0%float); ("b"%string, 1%float)] in
  exists block b1 b2,
    run tag_hash b (add_all items) = (repeat (Ok None) (length items), b1) /\
    flush tag_hash b1 2%float = (Ok (Some block), b2) /\
    tokens block = map fst items /\
    len (tokens block) = len items /\
    signed_blocks b2 = signed_blocks b ++ [block] /\
    flush tag_hash b2 3%float = (Ok None, b2).
Proof.
  apply (partial_flush tag_hash (TokenBlocker_init 4 None)
           [("a"%string, 0%float); ("b"%string, 1%float)] 2%float 3%float).
  - reflexivity.
  - unfold len. simpl. lia.
Defined.

Lemma signer_failure_isolation_witness :
  let b := TokenBlocker_init 1 (Some failing_signer) in
  (forall token, exists o b',
     add_token tag_hash b token 0%float = (Ok o, b') /\
     add_token tag_hash (with_signer b None) token 0%float =
       (Ok o, with_signer b' None) /\
     (block_size b <= len (current_tokens b) + 1 ->
      exists block,
        o = Some block /\ signature block = None /\
        signed_blocks b' = signed_blocks b ++ [block])) /\
  (exists o b',
     flush tag_hash b 0%float = (Ok o, b') /\
     flush tag_hash (with_signer b None) 0%float = (Ok o, with_signer b' None) /\
     (current_tokens b <> [] ->
      exists block,
        o = Some block /\ signature block = None /\
        signed_blocks b' = signed_blocks b ++ [block])).
Proof.
  apply (signer_failure_isolation tag_hash
           (TokenBlocker_init 1 (Some failing_signer)) failing_signer 0%float).
  - reflexivity.
  - intros data. exists (OtherError "signer unavailable"). reflexivity.
Defined.

Lemma root_determinism_witness :
  let calls1 := [(AddToken "a", 0%float); (AddToken "b", 1%float);
                 (AddToken "c", 2%float); (Flush, 3%float)] in
  let calls2 := [(AddToken "a", 4%float); (AddToken "b", 5%float);
                 (AddToken "c", 6%float); (Flush, 7%float)] in
  let h1 := get_all_blocks
              (snd (run tag_hash (TokenBlocker_init 2 None) calls1)) in
  let h2 := get_all_blocks
              (snd (run tag_hash (TokenBlocker_init 2 (Some failing_signer))
                        calls2)) in
  map merkle_root h1 = map merkle_root h2 /\
  map tokens h1 = map tokens h2 /\
  map block_id h1 = map block_id h2 /\
  Forall (fun block => block_root tag_hash (tokens block) =
                       Ok (merkle_root block)) h1.
Proof.
  apply (root_determinism tag_hash 2 None (Some failing_signer)
           [(AddToken "a", 0%float); (AddToken "b", 1%float);
            (AddToken "c", 2%float); (Flush, 3%float)]
           [(AddToken "a", 4%float); (AddToken "b", 5%float);
            (AddToken "c", 6%float); (Flush, 7%float)]).
  reflexivity.
Defined.

(** ** Concrete runs of the further properties *)

Lemma no_proofs_after_sealing_witness :
  let b := TokenBlocker_init 1 None in
  let block := mkSignedBlock ["a"%string] "#a" None 0%float 0 in
  let b' := mkTokenBlocker 1 None [] MerkleTree_init [block] 1 in
  current_tree b' = MerkleTree_init /\
  get_proof tag_hash (current_tree b') 0 = (Raise IndexError, MerkleTree_init) /\
  get_root tag_hash (current_tree b') = (Ok (tag_hash ""), MerkleTree_init).
Proof.
  apply (no_proofs_after_sealing tag_hash (TokenBlocker_init 1 None)
           (mkTokenBlocker 1 None [] MerkleTree_init
              [mkSignedBlock ["a"%string] "#a" None 0%float 0] 1)
           (AddToken "a") 0%float
           (mkSignedBlock ["a"%string] "#a" None 0%float 0) 0).
  reflexivity.
Defined.

Lemma build_tree_shape_witness :
  let t := block_tree tag_hash ["a"%string; "b"%string; "c"%string] in
  exists higher,
    tree (snd (build tag_hash t)) = leaves t :: higher /\
    levels_linked tag_hash (leaves t :: higher) /\
    leaves (snd (build tag_hash t)) = leaves t.
Proof.
  apply (build_tree_shape tag_hash
           (block_tree tag_hash ["a"%string; "b"%string; "c"%string])).
  discriminate.
Defined.

Lemma proof_size_witness :
  let p := mkMerkleProof "#c" 2 ["#c"%string; "##a#b"%string] "###a#b##c#c" in
  let t' := mkMerkleTree ["#a"%string; "#b"%string; "#c"%string]
              [["#a"%string; "#b"%string; "#c"%string];
               ["##a#b"%string; "##c#c"%string]; ["###a#b##c#c"%string]] in
  length (tree t') = S (length (siblings p)) /\
  (length ["a"%string; "b"%string; "c"%string] <= 2 ^ length (siblings p))%nat /\
  (siblings p <> [] ->
   2 ^ (length (siblings p) - 1) < length ["a"%string; "b"%string; "c"%string])%nat.
Proof.
  apply (proof_size tag_hash ["a"%string; "b"%string; "c"%string] 2).
  reflexivity.
Defined.

Lemma old_proofs_survive_add_leaf_witness :
  let t1 := snd (build tag_hash (block_tree tag_hash ["a"%string; "b"%string])) in
  let t2 := add_leaves tag_hash t1 ["c"%string] in
  exists p,
    get_proof tag_hash t1 1 = (Ok p, t1) /\
    get_proof tag_hash t2 1 = (Ok p, t2) /\
    verify_proof tag_hash p = true.
Proof.
  apply (old_proofs_survive_add_leaf tag_hash ["a"%string; "b"%string]
           ["c"%string] 1).
  unfold len. simpl. lia.
Defined.

Lemma root_frozen_after_first_get_root_witness :
  let calls := [AddLeaf "b"; GetRoot; AddLeaf "c"; GetRoot] in
  let t1 := snd (get_root tag_hash (block_tree tag_hash ["a"%string])) in
  Forall (fun r => r = block_root tag_hash ["a"%string])
         (fst (run_tree tag_hash t1 calls)) /\
  tree (snd (run_tree tag_hash t1 calls)) = tree t1 /\
  leaves (snd (run_tree tag_hash t1 calls)) =
  map tag_hash ["a"%string] ++ map tag_hash (added_data calls).
Proof.
  apply (root_frozen_after_first_get_root tag_hash ["a"%string]
           [AddLeaf "b"; GetRoot; AddLeaf "c"; GetRoot]).
  discriminate.
Defined.

Lemma duplicate_last_item_same_root_witness :
  block_root tag_hash (["a"%string; "b"%string] ++ ["c"%string]) =
  block_root tag_hash (["a"%string; "b"%string] ++ ["c"%string; "c"%string]).
Proof.
  apply duplicate_last_item_same_root.
  - discriminate.
  - exists 1%nat. reflexivity.
Defined.

Lemma small_block_size_seals_every_token_witness :
  let items := [("a"%string, 0%float); ("b"%string, 1%float)] in
  let outcome := run tag_hash (TokenBlocker_init 0 None) (add_all items) in
  map tokens (get_all_blocks (snd outcome)) =
    map (fun item => [fst item]) items /\
  current_tokens (snd outcome) = [] /\
  Forall (fun r => exists block, r = Ok (Some block)) (fst outcome).
Proof.
  apply (small_block_size_seals_every_token tag_hash 0 None
           [("a"%string, 0%float); ("b"%string, 1%float)]).
  lia.
Defined.

Lemma block_sizes_bounded_witness :
  let calls := [(AddToken "a", 0%float); (Flush, 1%float);
                (AddToken "b", 2%float); (AddToken "c", 3%float)] in
  let b' := snd (run tag_hash (TokenBlocker_init 2 None) calls) in
  len (current_tokens b') < 2 /\
  Forall (fun block => 1 <= len (tokens block) <= 2) (get_all_blocks b').
Proof.
  apply (block_sizes_bounded tag_hash 2 None
           [(AddToken "a", 0%float); (Flush, 1%float);
            (AddToken "b", 2%float); (AddToken "c", 3%float)]).
  lia.
Defined.

Lemma blocks_after_n_tokens_witness :
  let items := [("a"%string, 0%float); ("b"%string, 1%float);
                ("c"%string, 2%float)] in
  let b' := snd (run tag_hash (TokenBlocker_init 2 None) (add_all items)) in
  len (get_all_blocks b') = len items / 2 /\
  len (current_tokens b') = len items mod 2.
Proof.
  apply (blocks_after_n_tokens tag_hash 2 None
           [("a"%string, 0%float); ("b"%string, 1%float);
            ("c"%string, 2%float)]).
  lia.
Defined.

(** * The caller: stages 5 and 6 of [scripts/sovereign/fao_loop.py]

    [FAOLoop] owns one [TokenBlocker], created without a signer, and
    keeps counters beside it.  The fields the two stages do not touch
    (the model, the monitors, the detectors) are not part of the record.
    [time.perf_counter()] is read twice by each stage; both readings are
    inputs. *)

Module FAO.

Local Abbreviation capacity := block_size.
Local Abbreviation history := signed_blocks.

Record FAOLoop : Type := mkFAOLoop {
  block_size : Z;
  token_blocker : TokenBlocker;
  total_tokens : Z;
  rejected_tokens : Z;
  signed_blocks : Z
}.

(** [FAOLoop.__init__], with [TokenBlocker(block_size=block_size)] *)
Definition FAOLoop_init (block_size : Z) : FAOLoop :=
  mkFAOLoop block_size (TokenBlocker_init block_size None) 0 0 0.

(** [(time.perf_counter() - t0) * 1000] *)
Definition latency_ms (t0 t1 : float) : float := ((t1 - t0) * 1000)%float.

(** The clock readings of one token: stage 5, stage 6, and [time.time()]
    for the case that stage 6 seals. *)
Record readings : Type := mkReadings {
  perf_5 : float * float;
  perf_6 : float * float;
  wall : float
}.

Definition _stage_5_execution
    (loop : FAOLoop) (token : string) (is_safe : bool) (t0 t1 : float)
  : (string * float) * FAOLoop :=
  if is_safe then ((token, latency_ms t0 t1), loop)
  else
    (("[STEERED]"%string, latency_ms t0 t1),
     mkFAOLoop (block_size loop) (token_blocker loop) (total_tokens loop)
               (rejected_tokens loop + 1) (signed_blocks loop)).

(** What stage 5 hands on. *)
Definition steered (token : string) (is_safe : bool) : string :=
  if is_safe then token else "[STEERED]"%string.

Section Loop.

Variable hash_fn : string -> string.

Definition _stage_6_attestation
    (loop : FAOLoop) (token : string) (t0 t1 now : float)
  : result (option SignedBlock * float) * FAOLoop :=
  let '(r, blocker) := add_token hash_fn (token_blocker loop) token now in
  match r with
  | Raise e =>
      (Raise e,
       mkFAOLoop (block_size loop) blocker (total_tokens loop)
                 (rejected_tokens loop) (signed_blocks loop))
  | Ok block =>
      let signed_blocks' :=
        match block with
        | Some _ => signed_blocks loop + 1
        | None => signed_blocks loop
        end in
      (Ok (block, latency_ms t0 t1),
       mkFAOLoop (block_size loop) blocker (total_tokens loop)
                 (rejected_tokens loop) signed_blocks')
  end.

(** Stage 5 and then stage 6 on its output, as [process_token] chains
    them. *)
Definition execute_and_attest
    (loop : FAOLoop) (token : string) (is_safe : bool) (clk : readings)
  : result (string * option SignedBlock) * FAOLoop :=
  let '((output, _), loop1) :=
    _stage_5_execution loop token is_safe (fst (perf_5 clk)) (snd (perf_5 clk)) in
  let '(r, loop2) :=
    _stage_6_attestation loop1 output (fst (perf_6 clk)) (snd (perf_6 clk))
                         (wall clk) in
  (x <- r ;; Ok (output, fst x), loop2).

(** One token after the other; an exception ends the run. *)
Fixpoint run_tokens (loop : FAOLoop) (inputs : list (string * bool * readings))
  : FAOLoop :=
  match inputs with
  | [] => loop
  | (token, is_safe, clk) :: inputs' =>
      let '(r, loop1) := execute_and_attest loop token is_safe clk in
      match r with
      | Ok _ => run_tokens loop1 inputs'
      | Raise _ => loop1
      end
  end.

(** The tokens that reach the attestor, with the clock of a sealing. *)
Definition attested (inputs : list (string * bool * readings))
  : list (string * float) :=
  map (fun x => (steered (fst (fst x)) (snd (fst x)), wall (snd x))) inputs.

Definition rejected (inputs : list (string * bool * readings)) : Z :=
  len (filter (fun x => negb (snd (fst x))) inputs).

Lemma execute_and_attest_spec
    (loop : FAOLoop) (token : string) (is_safe : bool) (clk : readings) :
  let outcome :=
    add_token hash_fn (token_blocker loop) (steered token is_safe) (wall clk) in
  exists block,
    fst outcome = Ok block /\
    execute_and_attest loop token is_safe clk =
    (Ok (steered token is_safe, block),
     mkFAOLoop (block_size loop) (snd outcome) (total_tokens loop)
               (rejected_tokens loop + (if is_safe then 0 else 1))
               (signed_blocks loop + len (sealed [fst outcome]))).
Proof.
  cbv zeta. unfold execute_and_attest, _stage_5_execution, _stage_6_attestation.
  pose proof (do_call_explicit hash_fn (token_blocker loop)
                (AddToken (steered token is_safe)) (wall clk)) as H.
  cbn [do_call] in H. cbv zeta in H.
  destruct is_safe; cbn [steered fst snd token_blocker block_size total_tokens
                         rejected_tokens signed_blocks] in *.
  - destruct H as [[-> _]|[r (_ & _ & -> & _)]]; eexists;
      (split; [reflexivity|]); cbn [bind fst snd sealed]; unfold len;
      cbn [length]; repeat f_equal; lia.
  - destruct H as [[-> _]|[r (_ & _ & -> & _)]]; eexists;
      (split; [reflexivity|]); cbn [bind fst snd sealed]; unfold len;
      cbn [length]; repeat f_equal; lia.
Qed.

Lemma len_cons (A : Type) (a : A) (l : list A) : len (a :: l) = len l + 1.
Proof. unfold len. cbn [length]. lia. Qed.

Lemma sealed_cons (r : result (option SignedBlock))
    (rs : list (result (option SignedBlock))) :
  len (sealed (r :: rs)) = len (sealed [r]) + len (sealed rs).
Proof.
  destruct r as [[block|]|e]; cbn [sealed]; rewrite ?len_cons;
    change (@len SignedBlock []) with 0; lia.
Qed.

(** The attestor of the loop sees exactly the [add_token] calls for the
    outputs of stage 5, and the counters follow. *)
Lemma run_tokens_spec (inputs : list (string * bool * readings)) :
  forall loop,
    let outcome := run hash_fn (token_blocker loop) (add_all (attested inputs)) in
    token_blocker (run_tokens loop inputs) = snd outcome /\
    rejected_tokens (run_tokens loop inputs) =
      rejected_tokens loop + rejected inputs /\
    signed_blocks (run_tokens loop inputs) =
      signed_blocks loop + len (sealed (fst outcome)) /\
    total_tokens (run_tokens loop inputs) = total_tokens loop.
Proof.
  induction inputs as [|[[token is_safe] clk] inputs IH]; intros loop; cbv zeta.
  - cbn. unfold rejected, len. cbn. repeat split; lia.
  - cbn [run_tokens attested add_all map run do_call fst snd].
    fold (attested inputs). fold (add_all (attested inputs)).
    destruct (execute_and_attest_spec loop token is_safe clk)
      as [block [Hr ->]]. cbv zeta in Hr.
    destruct (add_token hash_fn (token_blocker loop) (steered token is_safe)
                (wall clk)) as [r b1]. cbn [fst snd] in *.
    specialize (IH (mkFAOLoop (block_size loop) b1 (total_tokens loop)
                      (rejected_tokens loop + (if is_safe then 0 else 1))
                      (signed_blocks loop + len (sealed [r])))).
    cbv zeta in IH. cbn [token_blocker rejected_tokens signed_blocks
                         total_tokens] in IH.
    destruct IH as (I1 & I2 & I3 & I4).
    destruct (run hash_fn b1 (add_all (attested inputs))) as [rs b2].
    cbn [fst snd] in *.
    rewrite I1, I2, I3, I4, (sealed_cons r rs). repeat split; try lia.
    unfold rejected. cbn [filter fst snd].
    destruct is_safe; cbn [negb]; rewrite ?len_cons; lia.
Qed.

Lemma added_tokens_add_all (items : list (string * float)) :
  added_tokens (add_all items) = map fst items.
Proof.
  unfold added_tokens, add_all.
  induction items as [|[token now] items IH]; [reflexivity|].
  cbn [map flat_map fst call_tokens app]. now rewrite IH.
Qed.

Lemma map_fst_attested (inputs : list (string * bool * readings)) :
  map fst (attested inputs) =
  map (fun x => steered (fst (fst x)) (snd (fst x))) inputs.
Proof. unfold attested. rewrite map_map. reflexivity. Qed.

(** The state of the loop's attestor after [run_tokens] on a new loop
    with [block_size >= 1]. *)
Lemma run_tokens_count (size : Z) (inputs : list (string * bool * readings)) :
  1 <= size ->
  let loop' := run_tokens (FAOLoop_init size) inputs in
  signed_blocks loop' = len (history (token_blocker loop')) /\
  len (current_tokens (token_blocker loop')) < size /\
  size * len (history (token_blocker loop')) +
  len (current_tokens (token_blocker loop')) = len inputs.
Proof.
  intros Hs. cbv zeta.
  destruct (run_tokens_spec inputs (FAOLoop_init size)) as (H1 & _ & H3 & _).
  cbv zeta in H1, H3. cbn [FAOLoop_init token_blocker signed_blocks] in H1, H3.
  rewrite H1, H3.
  destruct (run_ids_in_order hash_fn (add_all (attested inputs))
              (TokenBlocker_init size None)) as [_ Hh].
  { split; reflexivity. }
  destruct (run_add_all_count hash_fn (attested inputs)
              (TokenBlocker_init size None)) as (_ & C2 & C3).
  { exact Hs. }
  { cbn. lia. }
  cbn [TokenBlocker_init capacity history current_tokens app] in Hh, C2, C3.
  change (@len string []) with 0 in C3.
  change (@len SignedBlock []) with 0 in C3.
  unfold attested in C3 at 3. rewrite len_map in C3.
  rewrite <- Hh. split; [lia|]. split; [exact C2|lia].
Qed.

(** X15. What the loop attests: the tokens of the sealed blocks followed
    by those of the open block are the outputs of stage 5 in call order,
    a token judged unsafe being replaced by ["[STEERED]"]; and
    [rejected_tokens] counts the tokens judged unsafe. *)
Theorem attested_tokens_and_rejections
    (size : Z) (inputs : list (string * bool * readings)) :
  let loop' := run_tokens (FAOLoop_init size) inputs in
  concat (map tokens (get_all_blocks (token_blocker loop'))) ++
  current_tokens (token_blocker loop') =
    map (fun x => steered (fst (fst x)) (snd (fst x))) inputs /\
  rejected_tokens loop' = rejected inputs.
Proof.
  cbv zeta. unfold get_all_blocks.
  destruct (run_tokens_spec inputs (FAOLoop_init size)) as (H1 & H2 & _).
  cbv zeta in H1. cbn [FAOLoop_init token_blocker rejected_tokens] in H1, H2.
  rewrite H1, H2, run_conserves, added_tokens_add_all, map_fst_attested.
  split; [reflexivity|lia].
Qed.

(** X16. [signed_blocks] of the loop: after [n] tokens on a new loop with
    [block_size >= 1] it is the number of blocks in the attestor's
    history, and that is [n // block_size]. *)
Theorem signed_blocks_counter
    (size : Z) (inputs : list (string * bool * readings)) :
  1 <= size ->
  let loop' := run_tokens (FAOLoop_init size) inputs in
  signed_blocks loop' = len (get_all_blocks (token_blocker loop')) /\
  signed_blocks loop' = len inputs / size.
Proof.
  intros Hs. cbv zeta. unfold get_all_blocks.
  destruct (run_tokens_count size inputs Hs) as (H1 & H2 & H3).
  cbv zeta in *. split; [exact H1|]. rewrite H1.
  assert (H0 : 0 <= len (current_tokens
                           (token_blocker (run_tokens (FAOLoop_init size) inputs))))
    by apply Nat2Z.is_nonneg.
  eapply Z.div_unique with (r := len (current_tokens _)); [|symmetry; exact H3].
  lia.
Qed.

(** X17. The final flush is not counted: when the number of tokens is
    not a multiple of [block_size], the call [loop.token_blocker.flush()]
    of the script's main block seals the remaining tokens into one more
    block, and the history then holds one block more than
    [signed_blocks] says. *)
Theorem final_flush_not_counted
    (size : Z) (inputs : list (string * bool * readings)) (now : float) :
  1 <= size ->
  len inputs mod size <> 0 ->
  let loop' := run_tokens (FAOLoop_init size) inputs in
  exists block blocker',
    flush hash_fn (token_blocker loop') now = (Ok (Some block), blocker') /\
    len (tokens block) = len inputs mod size /\
    len (get_all_blocks blocker') = signed_blocks loop' + 1.
Proof.
  intros Hs Hmod. cbv zeta. unfold get_all_blocks.
  destruct (run_tokens_count size inputs Hs) as (H1 & H2 & H3).
  cbv zeta in *.
  set (tb := token_blocker (run_tokens (FAOLoop_init size) inputs)) in *.
  assert (H0 : 0 <= len (current_tokens tb)) by apply Nat2Z.is_nonneg.
  assert (Hc : len (current_tokens tb) = len inputs mod size).
  { apply Z.mod_unique with (q := len (history tb)); lia. }
  destruct (flush_seals hash_fn tb now) as [r [_ Hf]].
  { intros E. rewrite E in Hc. change (@len string []) with 0 in Hc. lia. }
  eexists. eexists. split; [exact Hf|].
  cbn [sealed_block tokens after_seal history]. split; [exact Hc|].
  rewrite len_app_one. lia.
Qed.

(** X18. The loop never signs: its attestor is created without a signer,
    so every block it seals has no signature. *)
Theorem blocks_unsigned (size : Z) (inputs : list (string * bool * readings)) :
  Forall (fun block => signature block = None)
         (get_all_blocks (token_blocker (run_tokens (FAOLoop_init size) inputs))).
Proof.
  unfold get_all_blocks.
  destruct (run_tokens_spec inputs (FAOLoop_init size)) as (H1 & _).
  cbv zeta in H1. cbn [FAOLoop_init token_blocker] in H1. rewrite H1.
  apply (run_signatures hash_fn None); [reflexivity|constructor].
Qed.

End Loop.

Lemma signed_blocks_counter_witness :
  let clk := mkReadings (0%float, 1%float) (1%float, 2%float) 3%float in
  let inputs := [("a"%string, true, clk); ("b"%string, false, clk);
                 ("c"%string, true, clk)] in
  let loop' := run_tokens tag_hash (FAOLoop_init 2) inputs in
  signed_blocks loop' = len (get_all_blocks (token_blocker loop')) /\
  signed_blocks loop' = len inputs / 2.
Proof.
  apply (signed_blocks_counter tag_hash 2). lia.
Defined.

Lemma final_flush_not_counted_witness :
  let clk := mkReadings (0%float, 1%float) (1%float, 2%float) 3%float in
  let inputs := [("a"%string, true, clk); ("b"%string, false, clk);
                 ("c"%string, true, clk)] in
  let loop' := run_tokens tag_hash (FAOLoop_init 2) inputs in
  exists block blocker',
    flush tag_hash (token_blocker loop') 4%float = (Ok (Some block), blocker') /\
    len (tokens block) = len inputs mod 2 /\
    len (get_all_blocks blocker') = signed_blocks loop' + 1.
Proof.
  apply (final_flush_not_counted tag_hash 2).
  - lia.
  - unfold len. simpl. discriminate.
Defined.

End FAO.
